(** * The article consolidation pipeline of the Google News tool

    A shallow embedding of [handler.py]: URL deduplication, title
    deduplication with cross-reference tracking, importance reranking and
    the truncation performed by [execute], followed by the properties of
    the pipeline.

    Conventions of the embedding.
    - A Python [str] is a [string]; all character classes are given for
      ASCII, on which they agree with Python's Unicode-aware ones.
    - An article dict is the record [Article]: [_normalize_article] always
      builds the same eight keys, so every [.get] finds its key.
    - A raised exception is [None] in the [option] monad.
    - The stages are given on values first. They are given once more on an
      object store ([Store]), where a dict and a list have an identity and
      [.append] writes in place, to follow two runs on the same objects.
    - The float [_jaccard] returns is an exact rational: the quotient of two
      set sizes is compared with [0.5] only, and for sizes below [2^53] the
      correctly rounded quotient lies on the same side of [0.5] as the exact
      one. *)

From Stdlib Require Import Ascii String QArith Sorting.Sorted.
From stdpp Require Import gmap strings list.

Local Open Scope string_scope.
Local Open Scope nat_scope.

(** ** Python string primitives (ASCII) *)

Module PyStr.

Definition code (c : ascii) : nat := nat_of_ascii c.

(** [str.isspace] on one character: TAB..CR, FS..US and the space. *)
Definition isspace (c : ascii) : bool :=
  let n := code c in
  (Nat.leb 9 n && Nat.leb n 13) || (Nat.leb 28 n && Nat.leb n 32).

Definition isupper (c : ascii) : bool :=
  let n := code c in Nat.leb 65 n && Nat.leb n 90.

Definition isalpha (c : ascii) : bool :=
  let n := code c in
  (Nat.leb 65 n && Nat.leb n 90) || (Nat.leb 97 n && Nat.leb n 122).

Definition isdigit (c : ascii) : bool :=
  let n := code c in Nat.leb 48 n && Nat.leb n 57.

(** The regular-expression class [\w]. *)
Definition isword (c : ascii) : bool :=
  isalpha c || isdigit c || Ascii.eqb c "_".

Definition lower_char (c : ascii) : ascii :=
  if isupper c then ascii_of_nat (code c + 32) else c.

Definition upper_char (c : ascii) : ascii :=
  let n := code c in
  if Nat.leb 97 n && Nat.leb n 122 then ascii_of_nat (n - 32) else c.

Fixpoint map (f : ascii -> ascii) (s : string) : string :=
  match s with
  | EmptyString => EmptyString
  | String c s' => String (f c) (map f s')
  end.

Fixpoint filter (p : ascii -> bool) (s : string) : string :=
  match s with
  | EmptyString => EmptyString
  | String c s' => if p c then String c (filter p s') else filter p s'
  end.

Definition lower : string -> string := map lower_char.
Definition upper : string -> string := map upper_char.

(** [s.lstrip()], [s.rstrip()] and [s.strip()] without argument. *)
Fixpoint lstrip (s : string) : string :=
  match s with
  | String c s' => if isspace c then lstrip s' else s
  | EmptyString => EmptyString
  end.

Definition rstrip (s : string) : string := String.rev (lstrip (String.rev s)).
Definition strip (s : string) : string := rstrip (lstrip s).

(** [s.split()] without argument: the maximal runs of non-space
    characters, in order. [cur] is the run being read, reversed. *)
Fixpoint split_go (cur : string) (s : string) : list string :=
  match s with
  | EmptyString =>
      match cur with EmptyString => [] | _ => [String.rev cur] end
  | String c s' =>
      if isspace c
      then match cur with
           | EmptyString => split_go EmptyString s'
           | _ => String.rev cur :: split_go EmptyString s'
           end
      else split_go (String c cur) s'
  end.

Definition split : string -> list string := split_go EmptyString.

(** [s.split(sep)] for a one-character separator: never empty. *)
Fixpoint split_on_go (sep : ascii) (cur : string) (s : string) : list string :=
  match s with
  | EmptyString => [String.rev cur]
  | String c s' =>
      if Ascii.eqb c sep
      then String.rev cur :: split_on_go sep EmptyString s'
      else split_on_go sep (String c cur) s'
  end.

Definition split_on (sep : ascii) : string -> list string :=
  split_on_go sep EmptyString.

(** [c in s] for a character. *)
Fixpoint contains (c : ascii) (s : string) : bool :=
  match s with
  | EmptyString => false
  | String d s' => Ascii.eqb c d || contains c s'
  end.

(** Truthiness of a string: [bool(s)]. *)
Definition truthy (s : string) : bool :=
  match s with EmptyString => false | _ => true end.

(** [s[:n]]. *)
Definition take (n : nat) (s : string) : string := String.substring 0 n s.

(** The part of [s] before the first character satisfying [p], and the
    rest, which starts with that character when there is one. *)
Fixpoint break (p : ascii -> bool) (s : string) : string * string :=
  match s with
  | EmptyString => (EmptyString, EmptyString)
  | String c s' =>
      if p c then (EmptyString, s)
      else let '(a, b) := break p s' in (String c a, b)
  end.

End PyStr.

(** ** Articles *)

(** The dict built by [_normalize_article]. *)
Record Article : Type := mkArticle {
  title : string;
  source : string;
  date : string;
  published_at : string;
  description : string;
  url : string;
  image_url : string;
  also_reported_by : list string
}.

#[global] Instance Article_eq_dec : EqDecision Article.
Proof. solve_decision. Defined.

(** [{**a, "also_reported_by": refs}]. *)
Definition with_also_reported_by (a : Article) (refs : list string) : Article :=
  {| title := title a; source := source a; date := date a;
     published_at := published_at a; description := description a;
     url := url a; image_url := image_url a; also_reported_by := refs |}.

(** ** The URL library

    [urllib.parse] is not part of the repository. [_normalize_url] uses two
    of its functions; they are an interface here, and the properties of the
    deduplicator are proved for every implementation of it. *)

Record ParseResult : Type := mkParseResult {
  scheme : string;
  netloc : string;
  path : string;
  params : string;
  query : string;
  fragment : string
}.

Class UrlLib : Type := {
  (** [urlparse(url)]; [None] when it raises. *)
  urlparse : string -> option ParseResult;
  (** [urlunparse((scheme, netloc, path, params, query, fragment))]. *)
  urlunparse : ParseResult -> string
}.

(** A model of CPython 3.11's [urlparse] and [urlunparse] on ASCII URLs,
    used to run the pipeline on concrete inputs. An unbalanced bracket in
    the host raises, as in CPython; the validation of a bracketed host and
    the NFKC check of a non-ASCII host are left out. *)

Module Urllib.

Definition uses_params : list string :=
  [""; "ftp"; "hdl"; "prospero"; "http"; "imap"; "https"; "shttp"; "rtsp";
   "rtspu"; "sip"; "sips"; "mms"; "sftp"; "tel"].

Definition uses_netloc : list string :=
  [""; "ftp"; "http"; "gopher"; "nntp"; "telnet"; "imap"; "wais"; "file";
   "mms"; "https"; "shttp"; "snews"; "prospero"; "rtsp"; "rtspu"; "rsync";
   "svn"; "svn+ssh"; "sftp"; "nfs"; "git"; "git+ssh"; "ws"; "wss"].

Definition is_scheme_char (c : ascii) : bool :=
  PyStr.isalpha c || PyStr.isdigit c || PyStr.contains c "+-.".

Definition all_chars (p : ascii -> bool) (s : string) : bool :=
  bool_decide (PyStr.filter p s = s).

Definition tail (s : string) : string :=
  match s with String _ s' => s' | EmptyString => EmptyString end.

Definition starts_with (pre s : string) : bool := String.prefix pre s.

(** Leading C0 controls and spaces are stripped, then every TAB, LF and CR
    is removed. *)
Fixpoint lstrip_c0 (s : string) : string :=
  match s with
  | String c s' => if Nat.leb (PyStr.code c) 32 then lstrip_c0 s' else s
  | EmptyString => EmptyString
  end.

Definition clean (s : string) : string :=
  PyStr.filter (fun c => negb (PyStr.contains c (String "009" (String "010" (String "013" "")))))
    (lstrip_c0 s).

(** [scheme, url = url[:i].lower(), url[i+1:]] when the text before the
    first colon is a scheme. *)
Definition split_scheme (u : string) : string * string :=
  let '(pre, rest) := PyStr.break (Ascii.eqb ":") u in
  match pre, rest with
  | String c _, String _ rest' =>
      if PyStr.isalpha c && all_chars is_scheme_char pre
      then (PyStr.lower pre, rest')
      else ("", u)
  | _, _ => ("", u)
  end.

(** [_splitnetloc(url, 2)] with the bracket check of [urlsplit]. *)
Definition split_netloc (u : string) : option (string * string) :=
  if starts_with "//" u then
    let '(host, rest) :=
      PyStr.break (fun c => PyStr.contains c "/?#") (tail (tail u)) in
    if xorb (PyStr.contains "[" host) (PyStr.contains "]" host)
    then None
    else Some (host, rest)
  else Some ("", u).

(** [url.split(sep, 1)] when [sep] occurs in [url]. *)
Definition split_first (sep : ascii) (u : string) : string * string :=
  let '(a, b) := PyStr.break (Ascii.eqb sep) u in (a, tail b).

Definition _splitparams (u : string) : string * string :=
  let '(seg_r, pre_r) := PyStr.break (Ascii.eqb "/") (String.rev u) in
  let '(a, b) := PyStr.break (Ascii.eqb ";") (String.rev seg_r) in
  match b with
  | EmptyString => (u, "")
  | String _ b' => (String.rev pre_r ++ a, b')
  end.

Definition parse (u0 : string) : option ParseResult :=
  let '(sch, u1) := split_scheme (clean u0) in
  '(host, u2) ← split_netloc u1;
  let '(u3, frag) := split_first "#" u2 in
  let '(u4, qry) := split_first "?" u3 in
  let '(u5, prm) :=
    if bool_decide (sch ∈ uses_params) && PyStr.contains ";" u4
    then _splitparams u4 else (u4, "") in
  Some {| scheme := sch; netloc := host; path := u5; params := prm;
          query := qry; fragment := frag |}.

Definition unparse (p : ParseResult) : string :=
  let u0 := if PyStr.truthy (params p) then path p ++ ";" ++ params p else path p in
  let u1 :=
    if PyStr.truthy (netloc p)
       || (PyStr.truthy (scheme p) && bool_decide (scheme p ∈ uses_netloc)
           && negb (starts_with "//" u0))
    then "//" ++ netloc p ++
         (if PyStr.truthy u0 && negb (starts_with "/" u0) then "/" ++ u0 else u0)
    else u0 in
  let u2 := if PyStr.truthy (scheme p) then scheme p ++ ":" ++ u1 else u1 in
  let u3 := if PyStr.truthy (query p) then u2 ++ "?" ++ query p else u2 in
  if PyStr.truthy (fragment p) then u3 ++ "#" ++ fragment p else u3.

Definition cpython : UrlLib := {| urlparse := parse; urlunparse := unparse |}.

End Urllib.

(** ** URL deduplication *)

(** A Python dict keeps its keys in insertion order: an association list
    with one entry per key. *)
Definition pydict (V : Type) : Type := list (string * V).

(** [k in d]. *)
Definition dict_contains {V} (k : string) (d : pydict V) : bool :=
  bool_decide (k ∈ d.*1).

(** [d[k] = v]: overwrite in place, or append a new key. *)
Fixpoint dict_set {V} (k : string) (v : V) (d : pydict V) : pydict V :=
  match d with
  | [] => [(k, v)]
  | (k', v') :: d' =>
      if decide (k' = k) then (k, v) :: d' else (k', v') :: dict_set k v d'
  end.

(** [list(d.values())]. *)
Definition dict_values {V} (d : pydict V) : list V := d.*2.

Section UrlDedup.
Context `{UrlLib}.

Definition _normalize_url (u : string) : string :=
  match urlparse u with
  | Some p =>
      urlunparse {| scheme := scheme p; netloc := netloc p; path := path p;
                    params := ""; query := ""; fragment := "" |}
  | None => u
  end.

(** The body of the loop of [_dedup_by_url]. *)
Definition url_step (seen_urls : pydict Article) (article : Article)
  : pydict Article :=
  let key := _normalize_url (url article) in
  if negb (PyStr.truthy key) || dict_contains key seen_urls
  then seen_urls
  else dict_set key article seen_urls.

Definition _dedup_by_url (articles : list Article) : list Article :=
  dict_values (foldl url_step [] articles).

(** The dedup key of an article. *)
Definition url_key (a : Article) : string := _normalize_url (url a).

(** A URL with its query string and fragment stripped, in the words of the
    spec: the text before the first [?] or [#]. *)
Definition strip_query_fragment (u : string) : string :=
  (PyStr.break (λ c, PyStr.contains c "?#") u).1.

(** The articles of [l] that the loop keeps when the keys in [seen] are
    taken: a recursive reading of the loop, to reason about it. *)
Fixpoint survivors (seen : gset string) (l : list Article) : list Article :=
  match l with
  | [] => []
  | a :: l' =>
      if bool_decide (url_key a = "" ∨ url_key a ∈ seen)
      then survivors seen l'
      else a :: survivors ({[url_key a]} ∪ seen) l'
  end.

End UrlDedup.

(** ** Title similarity *)

Definition _STOP_WORDS : gset string :=
  list_to_set
    ["the"; "a"; "an"; "in"; "on"; "at"; "to"; "for"; "of"; "is"; "are"; "was";
     "were"; "and"; "or"; "but"; "not"; "with"; "from"; "by"; "as"; "it"; "its";
     "this"; "that"; "has"; "have"; "had"; "be"; "been"; "will"; "would"; "can";
     "could"; "may"; "might"; "do"; "does"; "did"; "up"; "out"; "over"; "after";
     "into"; "than"; "how"; "what"; "when"; "who"; "all"; "more"; "about"].

(** [re.sub(r"[^\w\s]", "", s)]. *)
Definition strip_punctuation (s : string) : string :=
  PyStr.filter (fun c => PyStr.isword c || PyStr.isspace c) s.

Definition _title_words (t : string) : gset string :=
  let words := PyStr.split (strip_punctuation (PyStr.lower t)) in
  list_to_set (filter (λ w, (w ∉ _STOP_WORDS) ∧ (2 < String.length w)) words).

(** [n / m] on two lengths; division by zero raises. *)
Definition py_truediv (n m : nat) : option Q :=
  match m with
  | O => None
  | S _ => Some (Z.of_nat n # Pos.of_nat m)
  end.

(** Truthiness of a set. *)
Definition set_truthy (a : gset string) : bool := negb (bool_decide (a = ∅)).

Definition _jaccard (a b : gset string) : option Q :=
  if negb (set_truthy a) || negb (set_truthy b) then Some 0%Q
  else
    let union := a ∪ b in
    py_truediv (size (a ∩ b)) (size union).

(** [x > y] on rationals. *)
Definition Qgtb (x y : Q) : bool := negb (Qle_bool x y).

(** The test [_jaccard(a, b) > 0.5] of the inner loop. *)
Definition similar (a b : gset string) : bool :=
  match _jaccard a b with
  | Some sim => Qgtb sim (1 # 2)
  | None => false
  end.

(** The Jaccard similarity as the glossary words it: intersection size
    divided by union size, 0 when either set is empty. *)
Definition jaccard_spec (a b : gset string) : Q :=
  if bool_decide (a = ∅ ∨ b = ∅) then 0%Q
  else (inject_Z (Z.of_nat (size (a ∩ b))) / inject_Z (Z.of_nat (size (a ∪ b))))%Q.

(** ** Title deduplication *)

(** [(bool(image_url), len(description))], compared as Python compares
    tuples: the first components decide unless they are equal, and [False]
    is below [True]. *)
Definition rep_score (a : Article) : bool * nat :=
  (PyStr.truthy (image_url a), String.length (description a)).

Definition score_gt (x y : bool * nat) : bool :=
  if Bool.eqb x.1 y.1 then Nat.ltb y.2 x.2 else x.1 && negb y.1.

(** A loop body that may raise, run over a list from the left. *)
Fixpoint for_each {S X : Type} (body : S -> X -> option S) (s : S) (xs : list X)
  : option S :=
  match xs with
  | [] => Some s
  | x :: xs' => s' ← body s x; for_each body s' xs'
  end.

(** The variables the inner loop of [_dedup_by_title] reads and writes:
    [article], [words_i], [also_reported_by] and [used]. *)
Record Scan : Type := mkScan {
  sc_article : Article;
  sc_words : gset string;
  sc_refs : list string;
  sc_used : gset nat
}.

(** What the inner loop does once [j] is found similar: the cross-reference
    of [other], then the choice of the representative. [seed] is
    [articles[i]]. *)
Definition merge (seed other : Article) (j : nat) (st : Scan) : Scan :=
  let used := {[j]} ∪ sc_used st in
  let article := sc_article st in
  let other_source := source other in
  let refs :=
    if PyStr.truthy other_source && negb (bool_decide (other_source = source article))
    then (sc_refs st ++ [other_source])%list
    else sc_refs st in
  let current_score := rep_score article in
  let other_score := rep_score other in
  if score_gt other_score current_score then
    let article' := with_also_reported_by other [] in
    let refs' :=
      if negb (bool_decide (source article' = source seed))
      then (refs ++ [source seed])%list
      else refs in
    {| sc_article := article'; sc_words := _title_words (title article');
       sc_refs := refs'; sc_used := used |}
  else
    {| sc_article := article; sc_words := sc_words st;
       sc_refs := refs; sc_used := used |}.

(** The body of the inner loop, for one [j]. *)
Definition scan_step (articles : list Article) (i : nat) (st : Scan) (j : nat)
  : option Scan :=
  if bool_decide (j ∈ sc_used st) then Some st
  else
    other ← articles !! j;
    let words_j := _title_words (title other) in
    sim ← _jaccard (sc_words st) words_j;
    if Qgtb sim (1 # 2) then
      seed ← articles !! i;
      Some (merge seed other j st)
    else Some st.

(** [range(i + 1, len(articles))]. *)
Definition later (articles : list Article) (i : nat) : list nat :=
  seq (i + 1) (length articles - (i + 1)).

(** The variables of the inner loop when it starts. *)
Definition scan_init (used : gset nat) (article : Article) : Scan :=
  {| sc_article := article; sc_words := _title_words (title article);
     sc_refs := also_reported_by article; sc_used := used |}.

(** The inner loop for the cluster that starts at [i]. *)
Definition scan (articles : list Article) (used : gset nat) (i : nat)
  (article : Article) : option Scan :=
  for_each (scan_step articles i) (scan_init used article) (later articles i).

(** The body of the outer loop; its state is [used] and [deduplicated]. *)
Definition title_step (articles : list Article)
  (st : gset nat * list Article) (ia : nat * Article)
  : option (gset nat * list Article) :=
  let '(used, deduplicated) := st in
  let '(i, article) := ia in
  if bool_decide (i ∈ used) then Some st
  else
    sc ← scan articles used i article;
    Some (sc_used sc,
          (deduplicated ++ [with_also_reported_by (sc_article sc) (sc_refs sc)])%list).

(** [enumerate(articles)]. *)
Definition enumerate {A} (l : list A) : list (nat * A) := imap pair l.

Definition _dedup_by_title (articles : list Article) : option (list Article) :=
  snd <$> for_each (title_step articles) (∅, []) (enumerate articles).

(** ** Reranking *)

Definition _score (a : Article) : nat * string :=
  (length (also_reported_by a), published_at a).

(** [x < y] on [(int, str)] tuples. *)
Definition score_lt (x y : nat * string) : bool :=
  Nat.ltb x.1 y.1 || (Nat.eqb x.1 y.1 && String.ltb x.2 y.2).

(** [sorted(l, key=key, reverse=True)]: a stable sort into descending
    order. [sorted] is a builtin; this is the insertion sort with the same
    result, which places an element after the ones whose key is strictly
    greater and before every other one that followed it in [l]. *)
Fixpoint insert_desc {A K} (lt : K -> K -> bool) (key : A -> K) (x : A) (l : list A)
  : list A :=
  match l with
  | [] => [x]
  | y :: l' =>
      if lt (key x) (key y) then y :: insert_desc lt key x l' else x :: y :: l'
  end.

Definition sorted_reverse {A K} (lt : K -> K -> bool) (key : A -> K) (l : list A)
  : list A :=
  foldr (insert_desc lt key) [] l.

Definition _rerank (articles : list Article) : list Article :=
  sorted_reverse score_lt _score articles.

(** The order of the ranking as the spec words it: the counts decide, and
    among equal counts the timestamps, compared as plain strings. *)
Definition score_le (x y : nat * string) : Prop :=
  x.1 < y.1 ∨ (x.1 = y.1 ∧ String.le x.2 y.2).

(** ** The entry point *)

(** The [params] dict: every key is optional, [None] is an absent key or a
    [None] value, and ["limit"] holds an [int] as the docstring says. *)
Record Params : Type := mkParams {
  param_query : option string;
  param_limit : option Z;
  param_region : option string;
  param_period : option string;
  param_language : option string
}.

(** The [telemetry] dict. *)
Record Telemetry : Type := mkTelemetry {
  tel_locale : string;
  tel_language : option string
}.

(** The fetch layer: [_fetch_with_retry(query, region, period, language)]
    returns the normalized articles, [retry_used] and the last error, of
    which only [str(e)] is used. The network is not modelled: the
    properties of [execute] hold for every fetch layer. *)
Class Fetcher : Type := {
  _fetch_with_retry :
    string -> string -> string -> string -> list Article * bool * option string
}.

(** The ["_meta"] dict without its clock reading [fetch_latency_ms] and its
    two rounded floats [dedup_ratio] and [image_availability_rate]. *)
Record Meta : Type := mkMeta {
  article_count_raw : nat;
  article_count_deduped : nat;
  retry_used : bool;
  source_diversity : nat;
  meta_region : string;
  meta_language : string
}.

(** The dict [execute] returns; [resp_meta = None] is the empty ["_meta"]. *)
Record Response : Type := mkResponse {
  resp_results : list Article;
  resp_count : nat;
  resp_query : string;
  resp_error : option string;
  resp_meta : option Meta
}.

(** [x or ""] for an optional string. *)
Definition or_empty (x : option string) : string := default "" x.

(** [s or d]. *)
Definition str_or (s d : string) : string := if PyStr.truthy s then s else d.

(** [max(1, min(8, int(params.get("limit") or 5)))]. *)
Definition effective_limit (params : Params) : Z :=
  let requested :=
    match param_limit params with
    | Some n => if Z.eqb n 0 then 5%Z else n
    | None => 5%Z
    end in
  Z.max 1 (Z.min 8 requested).

(** The region and language given to the fetch layer. *)
Definition detect_region (params : Params) (telemetry : option Telemetry) : string :=
  let region := PyStr.upper (PyStr.strip (or_empty (param_region params))) in
  let region :=
    match telemetry with
    | Some t =>
        if negb (PyStr.truthy region) && PyStr.contains "_" (tel_locale t)
        then PyStr.upper (default "" (last (PyStr.split_on "_" (tel_locale t))))
        else region
    | None => region
    end in
  str_or region "US".

Definition detect_language (params : Params) (telemetry : option Telemetry) : string :=
  let language := PyStr.lower (PyStr.strip (or_empty (param_language params))) in
  let language :=
    match telemetry with
    | Some t =>
        let lang_tel := PyStr.strip (or_empty (tel_language t)) in
        if negb (PyStr.truthy language) && PyStr.truthy lang_tel
        then PyStr.lower (default "" (head (PyStr.split_on "-" lang_tel)))
        else language
    | None => language
    end in
  str_or language "en".

Section Execute.
Context `{UrlLib} `{Fetcher}.

(** The consolidation pipeline of [execute], before the truncation. *)
Definition consolidate (raw_articles : list Article) : option (list Article) :=
  let url_deduped := _dedup_by_url raw_articles in
  title_deduped ← _dedup_by_title url_deduped;
  Some (_rerank title_deduped).

(** [ranked[:limit]] for a positive [limit]. *)
Definition truncate (limit : Z) (ranked : list Article) : list Article :=
  take (Z.to_nat limit) ranked.

Definition execute (params : Params) (telemetry : option Telemetry)
  : option Response :=
  let query := PyStr.strip (or_empty (param_query params)) in
  if negb (PyStr.truthy query) then
    Some {| resp_results := []; resp_count := 0; resp_query := "";
            resp_error := None; resp_meta := None |}
  else
    let limit := effective_limit params in
    let region := detect_region params telemetry in
    let period := PyStr.strip (or_empty (param_period params)) in
    let language := detect_language params telemetry in
    let '(raw_articles, retry, fetch_error) :=
      _fetch_with_retry query region period language in
    match fetch_error, raw_articles with
    | Some e, [] =>
        Some {| resp_results := []; resp_count := 0; resp_query := query;
                resp_error := Some (PyStr.take 200 e); resp_meta := None |}
    | _, _ =>
        let url_deduped := _dedup_by_url raw_articles in
        title_deduped ← _dedup_by_title url_deduped;
        let ranked := _rerank title_deduped in
        let results := truncate limit ranked in
        let sources : gset string :=
          list_to_set (filter (λ s, s ≠ "") (source <$> results)) in
        Some {| resp_results := results; resp_count := length results;
                resp_query := query; resp_error := None;
                resp_meta :=
                  Some {| article_count_raw := length raw_articles;
                          article_count_deduped := length title_deduped;
                          retry_used := retry;
                          source_diversity := size sources;
                          meta_region := region;
                          meta_language := language |} |}
    end.

(** What the fetch layer returns in the call [execute] makes. *)
Definition fetched (params : Params) (telemetry : option Telemetry)
  : list Article * bool * option string :=
  _fetch_with_retry
    (PyStr.strip (or_empty (param_query params)))
    (detect_region params telemetry)
    (PyStr.strip (or_empty (param_period params)))
    (detect_language params telemetry).

End Execute.

(** ** Sample articles *)

Definition sample (t src descr img u pub : string) : Article :=
  {| title := t; source := src; date := ""; published_at := pub;
     description := descr; url := u; image_url := img;
     also_reported_by := [] |}.

(** An article without a link, and two whose links differ in the query
    string only. *)
Definition no_link : Article :=
  sample "Storm closes the harbour" "Gazette" "" "" "" "".

Definition linked_first : Article :=
  sample "Storm closes the harbour" "Gazette" "" ""
    "https://example.com/storm" "".

Definition linked_again : Article :=
  sample "Harbour closed" "Courier" "" ""
    "https://example.com/storm?utm_source=x" "".

(** Two links that [urlparse] rejects (the bracket of the host is not
    closed) and that differ in the query string only. *)
Definition unparsed_y : Article :=
  sample "Router flaw found" "Gazette" "" "" "http://[::1/x?y" "".

Definition unparsed_z : Article :=
  sample "Flaw in routers" "Courier" "" "" "http://[::1/x?z" "".

(** Three reports of one story under one title: a bare one, one with a
    description, one with a picture. *)
Definition wire_a : Article :=
  sample "Fed raises interest rates again" "A" "" ""
    "https://a.example/fed" "".

Definition wire_b : Article :=
  sample "Fed raises interest rates again" "B" "A longer description" ""
    "https://b.example/fed" "".

Definition wire_c : Article :=
  sample "Fed raises interest rates again" "C" "" "https://c.example/fed.jpg"
    "https://c.example/fed" "".

(** Three stories for the ranker: three cross-references, then one and one
    with different timestamps. *)
Definition story_big : Article :=
  with_also_reported_by
    (sample "Budget passes" "A" "" "" "https://a.example/budget" "2024-01-02T09:00:00")
    ["B"; "C"; "D"].

Definition story_new : Article :=
  with_also_reported_by
    (sample "Bridge reopens" "B" "" "" "https://b.example/bridge" "2024-01-05T09:00:00")
    ["A"].

Definition story_old : Article :=
  with_also_reported_by
    (sample "Harvest begins" "C" "" "" "https://c.example/harvest" "2024-01-01T09:00:00")
    ["A"].

(** A fetch layer that always returns the same five reports. *)
Definition canned_fetcher : Fetcher :=
  {| _fetch_with_retry := λ _ _ _ _,
       ([wire_a; linked_first; wire_b; linked_again; wire_c], false, None) |}.

(** A fetch layer that finds nothing, after a retry. *)
Definition silent_fetcher : Fetcher :=
  {| _fetch_with_retry := λ _ _ _ _, ([], true, None) |}.

(** A query without any option. *)
Definition plain_query : Params :=
  {| param_query := Some "fed rates"; param_limit := None;
     param_region := None; param_period := None; param_language := None |}.

(** Every character of [s] satisfies [p]. *)
Fixpoint chars_all (p : ascii -> bool) (s : string) : bool :=
  match s with
  | EmptyString => true
  | String c s' => p c && chars_all p s'
  end.

(** A lower-case letter, a digit or the underscore. *)
Definition is_plain_char (c : ascii) : bool :=
  PyStr.isword c && negb (PyStr.isupper c).

(** An ASCII character; a string of them is a [str] on which the
    character classes and case mappings above are those of Python. *)
Definition is_ascii_char (c : ascii) : bool := Nat.ltb (PyStr.code c) 128.

(** ** Invariants of the title deduplication *)

(** [s] and [a] agree on every key but ["also_reported_by"]. *)
Definition same_story (s a : Article) : Prop :=
  with_also_reported_by s [] = with_also_reported_by a [].

(** The names that occur in [articles]: the sources, and the
    cross-references the articles already carry. *)
Definition known_names (articles : list Article) : list string :=
  ((source <$> articles) ++ mjoin (also_reported_by <$> articles))%list.

(** What holds of the variables of the inner loop for the cluster that
    starts at [i], entered with [used0]: [used] has grown by later indices
    only, the representative is [articles[i]] or a newly consumed article,
    and the cross-references are names of [articles]. *)
Definition scan_inv (articles : list Article) (i : nat) (used0 : gset nat)
  (st : Scan) : Prop :=
  used0 ⊆ sc_used st
  ∧ (∀ j, j ∈ sc_used st → j ∈ used0 ∨ i < j < length articles)
  ∧ (∃ r a, articles !! r = Some a ∧ same_story (sc_article st) a
            ∧ (r = i ∨ (r ∈ sc_used st ∧ r ∉ used0)))
  ∧ Forall (λ x, x ∈ known_names articles) (sc_refs st).

(** The story [s] is the article at position [r], up to its
    cross-references. *)
Definition story_at (articles : list Article) (r : nat) (s : Article) : Prop :=
  ∃ a, articles !! r = Some a ∧ same_story s a.

(** What holds of [used] and [deduplicated] when the outer loop has
    handled the indices below [k]; [reps] are the positions of the
    representatives emitted so far. *)
Definition title_inv (articles : list Article) (reps : list nat) (k : nat)
  (st : gset nat * list Article) : Prop :=
  (∀ u, u ∈ st.1 → 0 < u < length articles)
  ∧ Forall2 (story_at articles) reps st.2
  ∧ NoDup reps
  ∧ Forall (λ r, r ∈ st.1 ∨ r < k) reps
  ∧ Forall (λ s, Forall (λ x, x ∈ known_names articles) (also_reported_by s)) st.2
  ∧ (0 < k → st.2 ≠ []).

(** ** The pipeline on the object store

    The stages once more, with the objects of the Python program kept in a
    store, to see what a run leaves behind for the next one. An article
    dict and a list are objects with an identity: the list under
    ["also_reported_by"] is shared by every dict that holds it, and
    [.append] changes it in place. A [str] is immutable and stays a value.
    [seen_urls], [used] and the word sets never leave the function that
    makes them; they are values too. A [for] loop over a list takes the
    items the list has when the loop starts: no statement of the stages
    stores into a list it is iterating. *)

Module Store.

(** An article dict; its ["also_reported_by"] is the address of a list. *)
Record Dict : Type := mkDict {
  d_title : string;
  d_source : string;
  d_date : string;
  d_published_at : string;
  d_description : string;
  d_url : string;
  d_image_url : string;
  d_also_reported_by : nat
}.

Inductive Obj : Type :=
| ODict (d : Dict)
| OStrs (xs : list string)
| ORefs (rs : list nat).

(** A statement: it reads and writes the store, and may raise. The store
    is a [list Obj]: an address is a position in it, the object at address
    [l] is [h !! l], and a new object gets the next address. *)
Definition M (A : Type) : Type := list Obj -> option (A * list Obj).

#[global] Instance M_ret : MRet M := λ A x h, Some (x, h).

#[global] Instance M_bind : MBind M := λ A B f m h,
  match m h with
  | Some (x, h') => f x h'
  | None => None
  end.

Definition raise {A} : M A := λ _, None.

Definition lift {A} (x : option A) : M A := λ h, (λ y, (y, h)) <$> x.

Definition alloc (o : Obj) : M nat := λ h, Some (length h, (h ++ [o])%list).

Definition load (l : nat) : M Obj := λ h, (λ o, (o, h)) <$> h !! l.

Definition store (l : nat) (o : Obj) : M unit := λ h,
  if bool_decide (l < length h) then Some (tt, <[l := o]> h) else None.

Definition load_dict (l : nat) : M Dict :=
  o ← load l; match o with ODict d => mret d | _ => raise end.

Definition load_strs (l : nat) : M (list string) :=
  o ← load l; match o with OStrs xs => mret xs | _ => raise end.

Definition load_refs (l : nat) : M (list nat) :=
  o ← load l; match o with ORefs rs => mret rs | _ => raise end.

(** [xs.append(x)] on a list of strings and on a list of dicts. *)
Definition append_str (l : nat) (x : string) : M unit :=
  xs ← load_strs l; store l (OStrs (xs ++ [x])%list).

Definition append_ref (l : nat) (r : nat) : M unit :=
  rs ← load_refs l; store l (ORefs (rs ++ [r])%list).

(** [xs[i]] and [len(xs)] on a list of dicts. *)
Definition item (l : nat) (i : nat) : M nat :=
  rs ← load_refs l; lift (rs !! i).

Definition len (l : nat) : M nat :=
  rs ← load_refs l; mret (length rs).

(** [{**d, "also_reported_by": refs}], before it is allocated. *)
Definition with_also_reported_by (d : Dict) (refs : nat) : Dict :=
  {| d_title := d_title d; d_source := d_source d; d_date := d_date d;
     d_published_at := d_published_at d; d_description := d_description d;
     d_url := d_url d; d_image_url := d_image_url d;
     d_also_reported_by := refs |}.

(** A [for] loop whose body is a statement. *)
Fixpoint for_each {St X : Type} (body : St -> X -> M St) (s : St) (xs : list X)
  : M St :=
  match xs with
  | [] => mret s
  | x :: xs' => s' ← body s x; for_each body s' xs'
  end.

(** The hash table behind a [set] of strings: its elements in the order
    of iteration, each once. CPython salts the hash of a [str] anew in
    every process, so the order is not the same in two runs; an operation
    fixes the content of its result and nothing else. *)
Class Hashing : Type := {
  (** [{w for w in ws}] *)
  set_of : list string -> list string;
  (** [a & b] *)
  set_and : list string -> list string -> list string;
  (** [a | b] *)
  set_or : list string -> list string -> list string;
  set_of_spec ws : NoDup (set_of ws) ∧ ∀ w, w ∈ set_of ws ↔ w ∈ ws;
  set_and_spec a b :
    NoDup a → NoDup b →
    NoDup (set_and a b) ∧ ∀ w, w ∈ set_and a b ↔ w ∈ a ∧ w ∈ b;
  set_or_spec a b :
    NoDup a → NoDup b →
    NoDup (set_or a b) ∧ ∀ w, w ∈ set_or a b ↔ w ∈ a ∨ w ∈ b
}.

(** Truthiness of a set. *)
Definition set_truthy (a : list string) : bool :=
  match a with [] => false | _ => true end.

Section Stages.
Context `{UrlLib} `{Hashing}.

(** *** URL deduplication *)

Definition url_step (seen_urls : pydict nat) (article : nat) : M (pydict nat) :=
  d ← load_dict article;
  let key := _normalize_url (d_url d) in
  if negb (PyStr.truthy key) || dict_contains key seen_urls
  then mret seen_urls
  else mret (dict_set key article seen_urls).

Definition _dedup_by_url (articles : nat) : M nat :=
  items ← load_refs articles;
  seen_urls ← for_each url_step [] items;
  alloc (ORefs (dict_values seen_urls)).

(** *** Title deduplication *)

Definition _title_words (t : string) : list string :=
  let words := PyStr.split (strip_punctuation (PyStr.lower t)) in
  set_of (filter (λ w, (w ∉ _STOP_WORDS) ∧ (2 < String.length w)) words).

Definition _jaccard (a b : list string) : option Q :=
  if negb (set_truthy a) || negb (set_truthy b) then Some 0%Q
  else
    let union := set_or a b in
    py_truediv (length (set_and a b)) (length union).

Definition rep_score (d : Dict) : bool * nat :=
  (PyStr.truthy (d_image_url d), String.length (d_description d)).

(** The variables of the inner loop: [article], [words_i] and [used], and
    the list [also_reported_by], which is an object. *)
Record Scan : Type := mkScan {
  sc_article : nat;
  sc_words : list string;
  sc_refs : nat;
  sc_used : gset nat
}.

(** The inner loop once [j] is found similar. *)
Definition merge (articles : nat) (i j : nat) (st : Scan) : M Scan :=
  let used := {[j]} ∪ sc_used st in
  other ← item articles j;
  o ← load_dict other;
  a ← load_dict (sc_article st);
  let other_source := d_source o in
  _ ← (if PyStr.truthy other_source && negb (bool_decide (other_source = d_source a))
       then append_str (sc_refs st) other_source
       else mret tt);
  let current_score := rep_score a in
  let other_score := rep_score o in
  if score_gt other_score current_score then
    fresh ← alloc (OStrs []);
    article' ← alloc (ODict (with_also_reported_by o fresh));
    a' ← load_dict article';
    seed ← item articles i;
    s ← load_dict seed;
    _ ← (if negb (bool_decide (d_source a' = d_source s))
         then append_str (sc_refs st) (d_source s)
         else mret tt);
    mret {| sc_article := article'; sc_words := _title_words (d_title a');
            sc_refs := sc_refs st; sc_used := used |}
  else
    mret {| sc_article := sc_article st; sc_words := sc_words st;
            sc_refs := sc_refs st; sc_used := used |}.

(** The body of the inner loop, for one [j]. *)
Definition scan_step (articles : nat) (i : nat) (st : Scan) (j : nat) : M Scan :=
  if bool_decide (j ∈ sc_used st) then mret st
  else
    other ← item articles j;
    o ← load_dict other;
    let words_j := _title_words (d_title o) in
    sim ← lift (_jaccard (sc_words st) words_j);
    if Qgtb sim (1 # 2) then merge articles i j st else mret st.

(** The body of the outer loop; [deduplicated] is an object, [used] a
    variable. *)
Definition title_step (articles deduplicated : nat) (used : gset nat)
  (ia : nat * nat) : M (gset nat) :=
  let '(i, article) := ia in
  if bool_decide (i ∈ used) then mret used
  else
    d ← load_dict article;
    let words_i := _title_words (d_title d) in
    own ← load_strs (d_also_reported_by d);
    also_reported_by ← alloc (OStrs own);
    n ← len articles;
    sc ← for_each (scan_step articles i)
           {| sc_article := article; sc_words := words_i;
              sc_refs := also_reported_by; sc_used := used |}
           (seq (i + 1) (n - (i + 1)));
    d' ← load_dict (sc_article sc);
    article' ← alloc (ODict (with_also_reported_by d' (sc_refs sc)));
    _ ← append_ref deduplicated article';
    mret (sc_used sc).

Definition _dedup_by_title (articles : nat) : M nat :=
  deduplicated ← alloc (ORefs []);
  items ← load_refs articles;
  _ ← for_each (title_step articles deduplicated) ∅ (enumerate items);
  mret deduplicated.

(** *** Reranking *)

Definition _score (article : nat) : M (nat * string) :=
  d ← load_dict article;
  refs ← load_strs (d_also_reported_by d);
  mret (length refs, d_published_at d).

(** [sorted] computes the key of every item once, sorts and returns a new
    list. *)
Definition keyed (keys : list (nat * string * nat)) (article : nat)
  : M (list (nat * string * nat)) :=
  k ← _score article; mret (keys ++ [(k, article)])%list.

Definition _rerank (articles : nat) : M nat :=
  items ← load_refs articles;
  keys ← for_each keyed [] items;
  alloc (ORefs (sorted_reverse score_lt fst keys).*2).

(** *** The composed stages *)

Definition consolidate (raw_articles : nat) : M nat :=
  url_deduped ← _dedup_by_url raw_articles;
  title_deduped ← _dedup_by_title url_deduped;
  _rerank title_deduped.

End Stages.

(** *** What the store holds, as values *)

(** The article a dict stands for when its list holds [refs]. *)
Definition to_article (d : Dict) (refs : list string) : Article :=
  {| title := d_title d; source := d_source d; date := d_date d;
     published_at := d_published_at d; description := d_description d;
     url := d_url d; image_url := d_image_url d; also_reported_by := refs |}.

Definition read_article (h : list Obj) (r : nat) : option Article :=
  o ← h !! r;
  match o with
  | ODict d =>
      o' ← h !! d_also_reported_by d;
      match o' with
      | OStrs refs => Some (to_article d refs)
      | _ => None
      end
  | _ => None
  end.

Definition read_list (h : list Obj) (l : nat) : option (list Article) :=
  o ← h !! l;
  match o with
  | ORefs rs => mapM (read_article h) rs
  | _ => None
  end.

(** The dict of an article whose cross-references are the list at
    [refs]. *)
Definition of_article (a : Article) (refs : nat) : Dict :=
  {| d_title := title a; d_source := source a; d_date := date a;
     d_published_at := published_at a; d_description := description a;
     d_url := url a; d_image_url := image_url a;
     d_also_reported_by := refs |}.

(** Two hash tables: one iterates in the order of insertion, the other in
    the opposite order. *)
Program Definition insertion_order : Hashing :=
  {| set_of := remove_dups;
     set_and := list_intersection;
     set_or := list_union |}.
Next Obligation.
  intros ws. split; [apply NoDup_remove_dups|]. intros w. apply elem_of_remove_dups.
Qed.
Next Obligation.
  intros a b Ha Hb. split; [by apply NoDup_list_intersection|].
  intros w. apply list_elem_of_intersection.
Qed.
Next Obligation.
  intros a b Ha Hb. split; [by apply NoDup_list_union|].
  intros w. apply list_elem_of_union.
Qed.

Program Definition opposite_order : Hashing :=
  {| set_of := reverse ∘ remove_dups;
     set_and := λ a b, reverse (list_intersection a b);
     set_or := λ a b, reverse (list_union a b) |}.
Next Obligation.
  intros ws. simpl. split; [rewrite reverse_Permutation; apply NoDup_remove_dups|].
  intros w. rewrite elem_of_reverse. apply elem_of_remove_dups.
Qed.
Next Obligation.
  intros a b Ha Hb. split; [rewrite reverse_Permutation; by apply NoDup_list_intersection|].
  intros w. rewrite elem_of_reverse. apply list_elem_of_intersection.
Qed.
Next Obligation.
  intros a b Ha Hb. split; [rewrite reverse_Permutation; by apply NoDup_list_union|].
  intros w. rewrite elem_of_reverse. apply list_elem_of_union.
Qed.

End Store.

(** A store in which five article dicts share one empty list of
    cross-references; the list of the five dicts is at address 6. *)
Definition shared_store : list Store.Obj :=
  [Store.OStrs [];
   Store.ODict (Store.of_article wire_a 0);
   Store.ODict (Store.of_article linked_first 0);
   Store.ODict (Store.of_article wire_b 0);
   Store.ODict (Store.of_article linked_again 0);
   Store.ODict (Store.of_article wire_c 0);
   Store.ORefs [1; 2; 3; 4; 5]].

(** *** The store and the values *)

(** The list [ws] is a hash table of the set [W]. *)
Definition holds (ws : list string) (W : gset string) : Prop :=
  NoDup ws ∧ list_to_set ws = W.

(** The dict [seen_urls] of a run on the store holds, under the same
    keys, the addresses of the articles of [seen_urls] in [url_step]. *)
Definition seen_rel (h : list Store.Obj) (ms : pydict nat) (ps : pydict Article)
  : Prop :=
  Forall2 (λ m p, m.1 = p.1 ∧ Store.read_article h m.2 = Some p.2) ms ps.

(** The variables of the inner loop on the store [h] and in [scan_step];
    [hi] is the store when the outer loop reached [i]. The list
    [also_reported_by] was made after [hi], it holds the cross-references,
    and the dict [article] does not hold it. *)
Definition scan_rel (hi h : list Store.Obj) (sm : Store.Scan) (sp : Scan) : Prop :=
  hi `prefix_of` h
  ∧ length hi ≤ Store.sc_refs sm
  ∧ h !! Store.sc_refs sm = Some (Store.OStrs (sc_refs sp))
  ∧ (∃ d, h !! Store.sc_article sm = Some (Store.ODict d)
          ∧ Store.d_also_reported_by d ≠ Store.sc_refs sm
          ∧ h !! Store.d_also_reported_by d
            = Some (Store.OStrs (also_reported_by (sc_article sp)))
          ∧ Store.to_article d (also_reported_by (sc_article sp)) = sc_article sp)
  ∧ holds (Store.sc_words sm) (sc_words sp)
  ∧ Store.sc_used sm = sc_used sp.

(** The variables of the outer loop on the store [h] and in
    [title_step]; [hs] is the store when [_dedup_by_title] was called. *)
Definition title_rel (hs h : list Store.Obj) (deduplicated : nat)
  (used : gset nat) (sp : gset nat * list Article) : Prop :=
  hs `prefix_of` h
  ∧ length hs ≤ deduplicated
  ∧ used = sp.1
  ∧ Store.read_list h deduplicated = Some sp.2.

(** * Properties *)

(** ** Strings *)

Lemma truthy_false s : PyStr.truthy s = false <-> s = "".
Proof. destruct s; simpl; split; congruence. Qed.

Lemma truthy_true s : PyStr.truthy s = true <-> s <> "".
Proof. destruct s; simpl; split; congruence. Qed.

(** ** The URL library model on three URLs *)

Example normalize_url_query :
  @_normalize_url Urllib.cpython "https://example.com/a/b?utm_source=x#top"
  = "https://example.com/a/b".
Proof. vm_compute. reflexivity. Qed.

Example normalize_url_empty : @_normalize_url Urllib.cpython "" = "".
Proof. reflexivity. Qed.

Example normalize_url_raises :
  @_normalize_url Urllib.cpython "http://[::1/x?y" = "http://[::1/x?y".
Proof. vm_compute. reflexivity. Qed.

(** ** URL deduplication *)

Section UrlDedupFacts.
Context `{UrlLib}.

Lemma dict_contains_spec {V} k (d : pydict V) :
  dict_contains k d = true ↔ k ∈ d.*1.
Proof. unfold dict_contains. by rewrite bool_decide_eq_true. Qed.

(** Setting a key the dict does not hold appends it. *)
Lemma dict_set_fresh {V} k (v : V) (d : pydict V) :
  k ∉ d.*1 → dict_set k v d = (d ++ [(k, v)])%list.
Proof.
  induction d as [|[k' v'] d IH]; intros Hk; simpl; [done|].
  rewrite fmap_cons, not_elem_of_cons in Hk. destruct Hk as [Hne Hk].
  simpl in Hne. rewrite decide_False by done. by rewrite IH.
Qed.

(** The loop, started from any dict, appends the survivors of the rest. *)
Lemma url_loop_survivors l (seen : pydict Article) :
  dict_values (foldl url_step seen l)
  = (dict_values seen ++ survivors (list_to_set seen.*1) l)%list.
Proof.
  revert seen. induction l as [|a l IH]; intros seen; simpl.
  { by rewrite app_nil_r. }
  rewrite IH. unfold url_step. fold (url_key a).
  destruct (PyStr.truthy (url_key a)) eqn:Ht; simpl.
  - apply truthy_true in Ht.
    destruct (dict_contains (url_key a) seen) eqn:Hc.
    + apply dict_contains_spec in Hc.
      rewrite bool_decide_true; [done|]. right. by apply elem_of_list_to_set.
    + assert (url_key a ∉ seen.*1) as Hn.
      { intros Hin. apply dict_contains_spec in Hin. congruence. }
      rewrite bool_decide_false.
      2:{ intros [?|Hin]; [done|]. by apply elem_of_list_to_set in Hin. }
      rewrite dict_set_fresh by done. unfold dict_values.
      rewrite !fmap_app. simpl. rewrite <- app_assoc. simpl.
      do 2 f_equal. f_equal.
      rewrite list_to_set_app_L. simpl. rewrite union_empty_r_L.
      apply union_comm_L.
  - apply truthy_false in Ht.
    rewrite bool_decide_true; [done|]. by left.
Qed.

Lemma dedup_by_url_survivors l : _dedup_by_url l = survivors ∅ l.
Proof. unfold _dedup_by_url. by rewrite url_loop_survivors. Qed.

Lemma survivors_keys seen l :
  Forall (λ a, url_key a ≠ "" ∧ (url_key a ∉ seen)) (survivors seen l).
Proof.
  revert seen. induction l as [|a l IH]; intros seen; simpl; [constructor|].
  case_bool_decide as Hd; [apply IH|].
  constructor; [tauto|].
  eapply Forall_impl; [apply IH|]. simpl. intros b [? Hb].
  split; [done|]. intros ?. apply Hb. apply elem_of_union. by right.
Qed.

Lemma succ_sorted (idxs : list nat) :
  StronglySorted lt idxs → StronglySorted lt (S <$> idxs).
Proof.
  induction 1; simpl; constructor; [done|].
  rewrite Forall_fmap. eapply Forall_impl; [done|]. simpl. lia.
Qed.

(** The positions of the survivors in [l]: increasing, and exactly the
    first position of every key that is neither empty nor taken. *)
Lemma survivors_positions seen l :
  ∃ idxs : list nat,
    StronglySorted lt idxs ∧
    Forall2 (λ i a, l !! i = Some a) idxs (survivors seen l) ∧
    ∀ i, i ∈ idxs ↔
      ∃ a, l !! i = Some a ∧ url_key a ≠ "" ∧ (url_key a ∉ seen) ∧
           ∀ i' a', i' < i → l !! i' = Some a' → url_key a' ≠ url_key a.
Proof.
  revert seen. induction l as [|a l IH]; intros seen; simpl.
  { exists []. split_and!; [constructor|constructor|].
    intros i. split; [by intros ?%elem_of_nil|]. by intros (? & ? & _). }
  case_bool_decide as Hd.
  - destruct (IH seen) as (idxs & Hs & Hf & Hm).
    exists (S <$> idxs). split_and!.
    + by apply succ_sorted.
    + rewrite Forall2_fmap_l. eapply Forall2_impl; [done|]. done.
    + intros i. rewrite list_elem_of_fmap. split.
      * intros (i0 & -> & Hi0). apply Hm in Hi0 as (b & Hb & Hne & Hns & Hfirst).
        exists b. split_and!; try done.
        intros [|i'] a' Hlt Ha'; simpl in Ha'.
        -- injection Ha' as <-. intros Heq. rewrite Heq in Hd. tauto.
        -- eapply Hfirst; [|done]. lia.
      * intros (b & Hb & Hne & Hns & Hfirst). destruct i as [|i0]; simpl in Hb.
        -- injection Hb as <-. tauto.
        -- exists i0. split; [done|]. apply Hm. exists b. split_and!; try done.
           intros i' a' Hlt Ha'. apply (Hfirst (S i') a'); [lia|done].
  - destruct (IH ({[url_key a]} ∪ seen)) as (idxs & Hs & Hf & Hm).
    exists (0 :: (S <$> idxs)). split_and!.
    + constructor; [by apply succ_sorted|].
      rewrite Forall_fmap. apply Forall_forall. intros; simpl; lia.
    + constructor; [done|].
      rewrite Forall2_fmap_l. eapply Forall2_impl; [done|]. done.
    + intros i. rewrite elem_of_cons, list_elem_of_fmap. split.
      * intros [->|(i0 & -> & Hi0)].
        -- exists a. split_and!; try done; try tauto. intros; lia.
        -- apply Hm in Hi0 as (b & Hb & Hne & Hns & Hfirst).
           rewrite not_elem_of_union, not_elem_of_singleton in Hns.
           exists b. split_and!; try done; [tauto|].
           intros [|i'] a' Hlt Ha'; simpl in Ha'.
           ++ injection Ha' as <-. intros Heq. symmetry in Heq. tauto.
           ++ eapply Hfirst; [|done]. lia.
      * intros (b & Hb & Hne & Hns & Hfirst). destruct i as [|i0]; [by left|].
        right. simpl in Hb. exists i0. split; [done|]. apply Hm.
        exists b. split_and!; try done.
        -- assert (url_key a ≠ url_key b) as Hab.
           { apply (Hfirst 0 a); [lia|done]. }
           rewrite not_elem_of_union, not_elem_of_singleton. split; [congruence|done].
        -- intros i' a' Hlt Ha'. apply (Hfirst (S i') a'); [lia|done].
Qed.

(** C1 (as the code has it): the guard [not key] of [_dedup_by_url] skips
    every article whose normalized key is empty, so no such article is in
    the output and the empty key is never a key of [seen_urls]; when
    [urlparse] raises, the key is the raw URL. *)
Theorem url_dedup_drops_empty_keys (l : list Article) :
  Forall (λ a, url_key a ≠ "") (_dedup_by_url l)
  ∧ ("" ∉ (foldl url_step [] l).*1)
  ∧ ∀ u, urlparse u = None → _normalize_url u = u.
Proof.
  split_and!.
  - rewrite dedup_by_url_survivors.
    eapply Forall_impl; [apply survivors_keys|]. by intros a [? _].
  - assert (∀ seen : pydict Article, "" ∉ seen.*1 → "" ∉ (foldl url_step seen l).*1)
      as Hgen; [|apply Hgen, not_elem_of_nil].
    induction l as [|a l' IH]; intros seen Hs; simpl; [done|].
    apply IH. unfold url_step.
    destruct (PyStr.truthy (_normalize_url (url a))) eqn:Ht; simpl; [|done].
    destruct (dict_contains _ seen) eqn:Hc; [done|].
    rewrite dict_set_fresh.
    2:{ intros Hin. apply dict_contains_spec in Hin. congruence. }
    rewrite fmap_app, elem_of_app. simpl. rewrite list_elem_of_singleton.
    apply truthy_true in Ht. intros [?|?]; [done|congruence].
  - intros u Hu. unfold _normalize_url. by rewrite Hu.
Qed.

(** The positions [_dedup_by_url] keeps: increasing, and exactly the first
    position of every non-empty key. *)
Lemma dedup_by_url_positions (l : list Article) :
  ∃ idxs : list nat,
    StronglySorted lt idxs ∧
    Forall2 (λ i a, l !! i = Some a) idxs (_dedup_by_url l) ∧
    ∀ i, i ∈ idxs ↔
      ∃ a, l !! i = Some a ∧ url_key a ≠ "" ∧
           ∀ i' a', i' < i → l !! i' = Some a' → url_key a' ≠ url_key a.
Proof.
  rewrite dedup_by_url_survivors.
  destruct (survivors_positions ∅ l) as (idxs & Hs & Hf & Hm).
  exists idxs. split_and!; [done|done|].
  intros i. rewrite Hm. split.
  - intros (a & ? & ? & _ & ?). by exists a.
  - intros (a & ? & ? & ?). exists a. split_and!; done || apply not_elem_of_empty.
Qed.

(** C4 (as the code has it): the key of a URL that parses is the URL
    rebuilt from the scheme, host and path of its parse, so two URLs whose
    parses differ in params, query string and fragment only have one key;
    the key of a URL that does not parse is the URL itself. The output of
    [_dedup_by_url] is the input read at an increasing list of positions,
    and a position is kept exactly when its article has a non-empty key
    that no earlier article has: of every group of articles with one
    non-empty key exactly the first-seen one survives, and the survivors
    keep their input order. *)
Theorem url_dedup_first_seen_per_key (l : list Article) :
  (∀ a p, urlparse (url a) = Some p →
     url_key a
     = urlunparse {| scheme := scheme p; netloc := netloc p; path := path p;
                     params := ""; query := ""; fragment := "" |})
  ∧ (∀ a, urlparse (url a) = None → url_key a = url a)
  ∧ (∀ a b p q,
       urlparse (url a) = Some p → urlparse (url b) = Some q →
       scheme p = scheme q → netloc p = netloc q → path p = path q →
       url_key a = url_key b)
  ∧ ∃ idxs : list nat,
      StronglySorted lt idxs ∧
      Forall2 (λ i a, l !! i = Some a) idxs (_dedup_by_url l) ∧
      ∀ i, i ∈ idxs ↔
        ∃ a, l !! i = Some a ∧ url_key a ≠ "" ∧
             ∀ i' a', i' < i → l !! i' = Some a' → url_key a' ≠ url_key a.
Proof.
  split_and!.
  - intros a p Hp. unfold url_key, _normalize_url. by rewrite Hp.
  - intros a Hnone. unfold url_key, _normalize_url. by rewrite Hnone.
  - intros a b p q Hp Hq Hs Hn Hpath. unfold url_key, _normalize_url.
    by rewrite Hp, Hq, Hs, Hn, Hpath.
  - apply dedup_by_url_positions.
Qed.

End UrlDedupFacts.

(** Two links that differ in the query string only have one key. *)
Lemma url_dedup_first_seen_per_key_witness :
  ∃ p q,
    @urlparse Urllib.cpython (url linked_first) = Some p
    ∧ @urlparse Urllib.cpython (url linked_again) = Some q
    ∧ query p ≠ query q
    ∧ @url_key Urllib.cpython linked_first = @url_key Urllib.cpython linked_again.
Proof.
  eexists _, _. split; [vm_compute; reflexivity|].
  split; [vm_compute; reflexivity|]. split; [discriminate|].
  eapply (proj1 (proj2 (proj2 (@url_dedup_first_seen_per_key Urllib.cpython []))));
    vm_compute; reflexivity.
Defined.

(** C4 (as the spec has it) fails: two links that do not parse and differ
    in the query string only are the same once query string and fragment are
    stripped, yet each is its own key and both survive. *)
Lemma url_dedup_keeps_unparsed_twins :
  ¬ (∀ (l : list Article) (a b : Article),
       a ∈ l → b ∈ l → a ≠ b →
       strip_query_fragment (url a) = strip_query_fragment (url b) →
       @url_key Urllib.cpython a ≠ "" →
       ¬ (a ∈ @_dedup_by_url Urllib.cpython l
          ∧ b ∈ @_dedup_by_url Urllib.cpython l)).
Proof.
  intros Hall.
  assert (@_dedup_by_url Urllib.cpython [unparsed_y; unparsed_z]
          = [unparsed_y; unparsed_z]) as Hboth.
  { vm_compute. reflexivity. }
  apply (Hall [unparsed_y; unparsed_z] unparsed_y unparsed_z).
  - apply list_elem_of_here.
  - apply list_elem_of_further, list_elem_of_here.
  - discriminate.
  - vm_compute. reflexivity.
  - vm_compute. discriminate.
  - rewrite Hboth. split.
    + apply list_elem_of_here.
    + apply list_elem_of_further, list_elem_of_here.
Qed.

(** The raw URL is the key of a link that does not parse. *)
Lemma url_dedup_drops_empty_keys_witness :
  @urlparse Urllib.cpython "http://[::1/x?y" = None
  ∧ @_normalize_url Urllib.cpython "http://[::1/x?y" = "http://[::1/x?y".
Proof.
  split; [vm_compute; reflexivity|].
  apply (proj2 (proj2 (@url_dedup_drops_empty_keys Urllib.cpython [no_link]))).
  vm_compute. reflexivity.
Defined.

(** C1 (as the spec has it) fails: an article without a link has the empty
    key and is dropped. *)
Lemma url_dedup_loses_empty_key :
  ¬ (∀ (l : list Article) (a : Article),
       a ∈ l → @url_key Urllib.cpython a = "" →
       a ∈ @_dedup_by_url Urllib.cpython l).
Proof.
  intros Hall.
  specialize (Hall [no_link] no_link (list_elem_of_here _ _) eq_refl).
  vm_compute in Hall. by apply elem_of_nil in Hall.
Qed.

(** Two links that differ in the query string only: the first is kept. *)
Example url_dedup_query_string :
  @_dedup_by_url Urllib.cpython [linked_first; no_link; linked_again]
  = [linked_first].
Proof. vm_compute. reflexivity. Qed.

(** ** Title similarity *)

Lemma Qgtb_lt x y : Qgtb x y = true ↔ (y < x)%Q.
Proof.
  unfold Qgtb. rewrite negb_true_iff, <- not_true_iff_false, Qle_bool_iff.
  split; [apply Qnot_le_lt|apply Qlt_not_le].
Qed.

(** [_jaccard] never divides by zero, and returns the similarity. *)
Lemma jaccard_returns a b :
  ∃ sim, _jaccard a b = Some sim ∧ (sim == jaccard_spec a b)%Q.
Proof.
  unfold _jaccard, jaccard_spec, set_truthy.
  destruct (decide (a = ∅)) as [->|Ha].
  { rewrite bool_decide_true by done. simpl. rewrite bool_decide_true by auto.
    by exists 0%Q. }
  destruct (decide (b = ∅)) as [->|Hb].
  { rewrite (bool_decide_true (∅ = ∅)) by done. rewrite orb_true_r.
    rewrite bool_decide_true by auto. by exists 0%Q. }
  rewrite !bool_decide_false by tauto. simpl.
  assert (size (a ∪ b) ≠ 0) as Hu.
  { intros Hz. apply size_empty_iff, empty_union in Hz as [Hz _].
    by apply Ha, leibniz_equiv. }
  destruct (size (a ∪ b)) as [|n] eqn:Hn; [done|]. simpl.
  eexists. split; [done|].
  rewrite Qmake_Qdiv. rewrite <- Pos.of_nat_succ, Zpos_P_of_succ_nat, <- Nat2Z.inj_succ.
  reflexivity.
Qed.

Lemma similar_spec a b : similar a b = true ↔ (1 # 2 < jaccard_spec a b)%Q.
Proof.
  unfold similar. destruct (jaccard_returns a b) as (sim & -> & Heq).
  rewrite Qgtb_lt. by rewrite Heq.
Qed.

Lemma not_similar_spec a b : similar a b = false ↔ (jaccard_spec a b <= 1 # 2)%Q.
Proof.
  rewrite <- not_true_iff_false, similar_spec.
  split; [apply Qnot_lt_le|apply Qle_not_lt].
Qed.

(** ** Title deduplication never raises *)

Lemma for_each_is_Some {S X} (body : S → X → option S) (P : X → Prop) xs :
  (∀ s x, P x → is_Some (body s x)) → Forall P xs →
  ∀ s, is_Some (for_each body s xs).
Proof.
  intros Hb. induction 1 as [|x xs Hx _ IH]; intros s; simpl; [done|].
  destruct (Hb s x Hx) as [s' ->]. simpl. apply IH.
Qed.

(** The body of the inner loop at two valid indices. *)
Lemma scan_step_eq articles i st j seed other :
  articles !! i = Some seed → articles !! j = Some other →
  scan_step articles i st j =
  Some (if bool_decide (j ∈ sc_used st) then st
        else if similar (sc_words st) (_title_words (title other))
             then merge seed other j st else st).
Proof.
  intros Hi Hj. unfold scan_step, similar. case_bool_decide; [done|].
  rewrite Hj. simpl.
  destruct (jaccard_returns (sc_words st) (_title_words (title other)))
    as (sim & -> & _). simpl.
  destruct (Qgtb sim (1 # 2)); [|done]. by rewrite Hi.
Qed.

Lemma later_in_range articles i :
  Forall (λ j, i < j < length articles) (later articles i).
Proof.
  unfold later. apply Forall_forall. intros j Hj.
  apply elem_of_seq in Hj. lia.
Qed.

Lemma scan_returns articles used i article :
  i < length articles → is_Some (scan articles used i article).
Proof.
  intros Hi. unfold scan.
  apply (for_each_is_Some _ (λ j, i < j < length articles)); [|apply later_in_range].
  intros s j [_ Hj].
  destruct (lookup_lt_is_Some_2 articles i Hi) as [seed Hseed].
  destruct (lookup_lt_is_Some_2 articles j Hj) as [other Hother].
  by rewrite (scan_step_eq _ _ _ _ seed other).
Qed.

Lemma enumerate_lookup {A} (l : list A) :
  Forall (λ ia, l !! ia.1 = Some ia.2) (enumerate l).
Proof.
  apply Forall_forall. intros [i a] Hin. unfold enumerate in Hin.
  apply elem_of_lookup_imap in Hin as (i' & a' & [= -> ->] & Hl). done.
Qed.

Lemma dedup_by_title_returns articles : is_Some (_dedup_by_title articles).
Proof.
  unfold _dedup_by_title.
  destruct (for_each_is_Some (title_step articles)
              (λ ia, articles !! ia.1 = Some ia.2) (enumerate articles))
    with (s := ((∅ : gset nat), ([] : list Article))) as [st Hst].
  - intros [used out] [i a] Hia. simpl in Hia. unfold title_step.
    case_bool_decide; [done|].
    destruct (scan_returns articles used i a) as [sc ->]; [|done].
    by apply lookup_lt_Some in Hia.
  - apply enumerate_lookup.
  - rewrite Hst. done.
Qed.

(** The body of the outer loop at a fresh and at a consumed index. *)
Lemma title_step_fresh articles (used : gset nat) out i a :
  i ∉ used →
  title_step articles (used, out) (i, a) =
  sc ← scan articles used i a;
  Some (sc_used sc,
        (out ++ [with_also_reported_by (sc_article sc) (sc_refs sc)])%list).
Proof. intros Hi. unfold title_step. by rewrite bool_decide_false. Qed.

Lemma title_step_used articles (used : gset nat) out i a :
  i ∈ used → title_step articles (used, out) (i, a) = Some (used, out).
Proof. intros Hi. unfold title_step. by rewrite bool_decide_true. Qed.

Lemma scan_step_fresh articles i st j seed other :
  articles !! i = Some seed → articles !! j = Some other → j ∉ sc_used st →
  scan_step articles i st j =
  Some (if similar (sc_words st) (_title_words (title other))
        then merge seed other j st else st).
Proof.
  intros Hi Hj Hu. rewrite (scan_step_eq _ _ _ _ seed other) by done.
  by rewrite bool_decide_false.
Qed.

Lemma merge_used seed other j st :
  sc_used (merge seed other j st) = {[j]} ∪ sc_used st.
Proof. unfold merge. by destruct (score_gt _ _). Qed.

(** Two articles: one story when their titles are similar, two otherwise. *)
Lemma dedup_by_title_pair x y :
  _dedup_by_title [x; y] =
  Some (if similar (_title_words (title x)) (_title_words (title y))
        then let m := merge x y 1 (scan_init ∅ x) in
             [with_also_reported_by (sc_article m) (sc_refs m)]
        else [with_also_reported_by x (also_reported_by x);
              with_also_reported_by y (also_reported_by y)]).
Proof.
  unfold _dedup_by_title, enumerate. cbn [imap for_each compose].
  rewrite title_step_fresh by apply not_elem_of_empty.
  unfold scan at 1, later. cbn [length Nat.add Nat.sub seq for_each].
  rewrite (scan_step_fresh [x; y] 0 _ 1 x y); [|done|done|apply not_elem_of_empty].
  cbn [mbind option_bind sc_words scan_init title].
  destruct (similar _ _); cbn [mbind option_bind].
  - rewrite title_step_used.
    2:{ rewrite merge_used. apply elem_of_union_l. by apply elem_of_singleton. }
    done.
  - rewrite title_step_fresh by apply not_elem_of_empty. done.
Qed.

(** ** The choice of the representative *)

Lemma score_gt_image n m : score_gt (true, n) (false, m) = true.
Proof. reflexivity. Qed.

Lemma score_gt_no_image n m : score_gt (false, n) (true, m) = false.
Proof. reflexivity. Qed.

Lemma score_gt_irrefl x : score_gt x x = false.
Proof.
  unfold score_gt. rewrite Bool.eqb_reflx. apply Nat.ltb_irrefl.
Qed.

(** What [merge] does when [other] wins, and when it does not. *)
Lemma merge_swap seed other j st :
  score_gt (rep_score other) (rep_score (sc_article st)) = true →
  sc_article (merge seed other j st) = with_also_reported_by other []
  ∧ sc_words (merge seed other j st) = _title_words (title other).
Proof. intros Hgt. unfold merge. by rewrite Hgt. Qed.

Lemma merge_keep seed other j st :
  score_gt (rep_score other) (rep_score (sc_article st)) = false →
  sc_article (merge seed other j st) = sc_article st
  ∧ sc_words (merge seed other j st) = sc_words st.
Proof. intros Hgt. unfold merge. by rewrite Hgt. Qed.

(** [words_i] is the word set of the current representative all along. *)
Lemma merge_words seed other j st :
  sc_words st = _title_words (title (sc_article st)) →
  sc_words (merge seed other j st)
  = _title_words (title (sc_article (merge seed other j st))).
Proof.
  intros Hw. destruct (score_gt (rep_score other) (rep_score (sc_article st))) eqn:Hgt.
  - by destruct (merge_swap seed other j st Hgt) as [-> ->].
  - by destruct (merge_keep seed other j st Hgt) as [-> ->].
Qed.

(** The source [merge] appends on a swap is that of [seed]. *)
Lemma merge_swap_last seed other j st :
  score_gt (rep_score other) (rep_score (sc_article st)) = true →
  source other ≠ source seed →
  last (sc_refs (merge seed other j st)) = Some (source seed).
Proof.
  intros Hgt Hne. unfold merge. rewrite Hgt. cbn [sc_refs source with_also_reported_by].
  rewrite bool_decide_false by done. cbn [negb]. apply last_snoc.
Qed.

Lemma for_each_invariant {S X} (body : S → X → option S) (I : S → Prop) xs :
  (∀ s x s', body s x = Some s' → I s → I s') →
  ∀ s s', for_each body s xs = Some s' → I s → I s'.
Proof.
  intros Hb. induction xs as [|x xs IH]; intros s s' Hrun Hs; simpl in Hrun.
  { by injection Hrun as <-. }
  destruct (body s x) as [s1|] eqn:Hs1; simpl in Hrun; [|done].
  eapply IH; [done|]. by eapply Hb.
Qed.

Lemma scan_step_words articles i st j st' :
  scan_step articles i st j = Some st' →
  sc_words st = _title_words (title (sc_article st)) →
  sc_words st' = _title_words (title (sc_article st')).
Proof.
  intros Hstep Hw. unfold scan_step in Hstep.
  case_bool_decide; [by injection Hstep as <-|].
  destruct (articles !! j) as [other|]; simpl in Hstep; [|done].
  destruct (_jaccard _ _) as [sim|]; simpl in Hstep; [|done].
  destruct (Qgtb sim (1 # 2)); [|by injection Hstep as <-].
  destruct (articles !! i) as [seed|]; simpl in Hstep; [|done].
  injection Hstep as <-. by apply merge_words.
Qed.

(** All along the inner loop, [words_i] is the word set of the title of
    the current representative. *)
Lemma scan_words articles used i article sc :
  scan articles used i article = Some sc →
  sc_words sc = _title_words (title (sc_article sc)).
Proof.
  intros Hscan. unfold scan in Hscan.
  eapply (for_each_invariant _
            (λ st, sc_words st = _title_words (title (sc_article st))));
    [apply scan_step_words|done|done].
Qed.

Example similar_same_title :
  similar (_title_words (title wire_a)) (_title_words (title wire_b)) = true.
Proof. vm_compute. reflexivity. Qed.

(** The two titles of the scenario of the spec share 2 words of 7. *)
Example jaccard_fed :
  _jaccard (_title_words "Fed raises interest rates again")
    (_title_words "Federal Reserve raises rates") = Some (2 # 7)%Q.
Proof. vm_compute. reflexivity. Qed.

Example title_words_punctuation :
  _title_words "The U.S. is-it  A-OK? Yes, and AGAIN!"
  = {["isit"; "aok"; "yes"; "again"]}.
Proof. vm_compute. reflexivity. Qed.

Lemma representative_of_merge seed other j st :
  let cur := sc_article st in
  let kept := sc_article (merge seed other j st) in
  (image_url other ≠ "" → image_url cur = "" →
     kept = with_also_reported_by other [])
  ∧ (image_url cur ≠ "" → image_url other = "" → kept = cur)
  ∧ (rep_score other = rep_score cur → kept = cur).
Proof.
  simpl. split_and!.
  - intros Ho Hc. apply merge_swap. unfold rep_score.
    apply truthy_true in Ho. apply truthy_false in Hc. by rewrite Ho, Hc.
  - intros Hc Ho. apply merge_keep. unfold rep_score.
    apply truthy_true in Hc. apply truthy_false in Ho. by rewrite Ho, Hc.
  - intros Heq. apply merge_keep. rewrite Heq. apply score_gt_irrefl.
Qed.

(** C5: a pair of titles the deduplicator considers, the current
    representative's and that of a not yet consumed [j], merges exactly when
    the Jaccard similarity of the two significant-word sets exceeds 0.5:
    above it [j] is consumed and merged, at or below it the step changes
    nothing. [_jaccard] returns that similarity, intersection size over
    union size and 0 when either set is empty. On a list of two articles:
    one story above 0.5, both articles otherwise. *)
Theorem title_merge_threshold :
  (∀ a b, ∃ sim, _jaccard a b = Some sim ∧ (sim == jaccard_spec a b)%Q)
  ∧ (∀ articles i j st seed other,
       articles !! i = Some seed → articles !! j = Some other →
       j ∉ sc_used st →
       sc_words st = _title_words (title (sc_article st)) →
       let sim := jaccard_spec (_title_words (title (sc_article st)))
                    (_title_words (title other)) in
       ((1 # 2 < sim)%Q →
          scan_step articles i st j = Some (merge seed other j st)
          ∧ j ∈ sc_used (merge seed other j st))
       ∧ ((sim <= 1 # 2)%Q → scan_step articles i st j = Some st))
  ∧ (∀ x y,
       let sim := jaccard_spec (_title_words (title x)) (_title_words (title y)) in
       ((1 # 2 < sim)%Q → ∃ story, _dedup_by_title [x; y] = Some [story])
       ∧ ((sim <= 1 # 2)%Q →
            _dedup_by_title [x; y]
            = Some [with_also_reported_by x (also_reported_by x);
                    with_also_reported_by y (also_reported_by y)])).
Proof.
  split_and!.
  - apply jaccard_returns.
  - intros articles i j st seed other Hi Hj Hu Hw. simpl.
    rewrite (scan_step_fresh _ _ _ _ seed other) by done. rewrite Hw. split.
    + intros Hsim. apply similar_spec in Hsim. rewrite Hsim. split; [done|].
      rewrite merge_used. apply elem_of_union_l. by apply elem_of_singleton.
    + intros Hsim. apply not_similar_spec in Hsim. by rewrite Hsim.
  - intros x y. simpl. rewrite dedup_by_title_pair. split.
    + intros Hsim. apply similar_spec in Hsim. rewrite Hsim. eauto.
    + intros Hsim. apply not_similar_spec in Hsim. by rewrite Hsim.
Qed.

(** The threshold at two reports of one story: they merge. *)
Lemma title_merge_threshold_witness :
  (1 # 2 < jaccard_spec (_title_words (title wire_a)) (_title_words (title wire_b)))%Q
  ∧ ∃ story, _dedup_by_title [wire_a; wire_b] = Some [story].
Proof.
  split; [vm_compute; reflexivity|].
  apply (proj1 (proj2 (proj2 title_merge_threshold) wire_a wire_b)).
  vm_compute. reflexivity.
Defined.

(** C6: when [other] has an image and the current representative has none,
    [other] is kept whatever the description lengths; when it is the other
    way round the current representative is kept; and when the two scores
    [(has_image_url, description_length)] are equal the current
    representative is kept. The same on a cluster of two articles. *)
Theorem representative_prefers_image :
  (∀ seed other j st,
     let cur := sc_article st in
     let kept := sc_article (merge seed other j st) in
     (image_url other ≠ "" → image_url cur = "" →
        kept = with_also_reported_by other [])
     ∧ (image_url cur ≠ "" → image_url other = "" → kept = cur)
     ∧ (rep_score other = rep_score cur → kept = cur))
  ∧ (∀ x y,
       similar (_title_words (title x)) (_title_words (title y)) = true →
       (image_url y ≠ "" → image_url x = "" →
          ∃ refs, _dedup_by_title [x; y] = Some [with_also_reported_by y refs])
       ∧ (image_url x ≠ "" → image_url y = "" →
          ∃ refs, _dedup_by_title [x; y] = Some [with_also_reported_by x refs])
       ∧ (rep_score y = rep_score x →
          ∃ refs, _dedup_by_title [x; y] = Some [with_also_reported_by x refs])).
Proof.
  split; [apply representative_of_merge|].
  intros x y Hsim. rewrite dedup_by_title_pair, Hsim. cbn zeta.
  destruct (representative_of_merge x y 1 (scan_init ∅ x)) as (Hy & Hx & Htie).
  cbn zeta in Hy, Hx, Htie. change (sc_article (scan_init ∅ x)) with x in *.
  split_and!.
  - intros ? ?. rewrite Hy by done. by eexists.
  - intros ? ?. rewrite Hx by done. by eexists.
  - intros ?. rewrite Htie by done. by eexists.
Qed.

(** The choice at a bare report followed by one with a picture. *)
Lemma representative_prefers_image_witness :
  image_url wire_c ≠ "" ∧ image_url wire_a = ""
  ∧ ∃ refs, _dedup_by_title [wire_a; wire_c]
            = Some [with_also_reported_by wire_c refs].
Proof.
  split; [done|]. split; [done|].
  apply (proj1 (proj2 representative_prefers_image wire_a wire_c
                  similar_same_title)); done.
Defined.

(** C2 (the code at a cluster with two swaps): [wire_b] replaces [wire_a],
    then [wire_c] replaces [wire_b]. At the second swap the source appended
    is ["A"], that of [articles[i]], although the representative being
    replaced is [wire_b] with source ["B"]. At every swap the source
    appended is that of [articles[i]]. *)
Theorem second_swap_appends_seed_source :
  _dedup_by_title [wire_a; wire_b; wire_c]
  = Some [with_also_reported_by wire_c ["B"; "A"; "C"; "A"]]
  ∧ (let st1 := merge wire_a wire_b 1 (scan_init ∅ wire_a) in
     sc_article st1 = wire_b
     ∧ sc_refs (merge wire_a wire_c 2 st1) = (sc_refs st1 ++ ["C"; "A"])%list)
  ∧ (∀ seed other j st,
       score_gt (rep_score other) (rep_score (sc_article st)) = true →
       source other ≠ source seed →
       last (sc_refs (merge seed other j st)) = Some (source seed)).
Proof.
  split_and!.
  - vm_compute. reflexivity.
  - vm_compute. done.
  - apply merge_swap_last.
Qed.

(** C3 (the code at a cluster with one swap): the source of [wire_c] is
    appended before [wire_c] becomes the representative, so the emitted
    story lists its own source. *)
Theorem swap_leaves_self_reference :
  ∃ story,
    _dedup_by_title [wire_a; wire_c] = Some [story]
    ∧ also_reported_by story = ["C"; "A"]
    ∧ source story ∈ also_reported_by story.
Proof.
  exists (with_also_reported_by wire_c ["C"; "A"]). split_and!.
  - vm_compute. reflexivity.
  - reflexivity.
  - simpl. apply list_elem_of_here.
Qed.

(** ** Reranking *)

Section SortedReverse.
Context {A K : Type} `{EqDecision K} (lt : K → K → bool) (key : A → K).
Hypothesis lt_irrefl : ∀ x, lt x x = false.
Hypothesis lt_asym : ∀ x y, lt x y = true → lt y x = false.
Hypothesis lt_negtrans :
  ∀ x y z, lt x y = false → lt y z = false → lt x z = false.

Lemma insert_desc_perm x l : insert_desc lt key x l ≡ₚ x :: l.
Proof.
  induction l as [|y l IH]; simpl; [done|].
  destruct (lt (key x) (key y)); [|done].
  rewrite IH. apply Permutation_swap.
Qed.

Lemma sorted_reverse_perm l : sorted_reverse lt key l ≡ₚ l.
Proof.
  induction l as [|x l IH]; simpl; [done|].
  by rewrite insert_desc_perm, IH.
Qed.

Lemma insert_desc_sorted x l :
  StronglySorted (λ a b, lt (key a) (key b) = false) l → StronglySorted (λ a b, lt (key a) (key b) = false) (insert_desc lt key x l).
Proof.
  induction 1 as [|y l Hs IH Hy]; simpl.
  { constructor; constructor. }
  destruct (lt (key x) (key y)) eqn:Hxy.
  - constructor; [done|].
    rewrite insert_desc_perm. constructor; [|done].
    by apply lt_asym.
  - constructor; [by constructor|].
    constructor; [done|].
    eapply Forall_impl; [done|]. intros z Hz. by eapply lt_negtrans.
Qed.

Lemma sorted_reverse_sorted l : StronglySorted (λ a b, lt (key a) (key b) = false) (sorted_reverse lt key l).
Proof.
  induction l as [|x l IH]; simpl; [constructor|].
  by apply insert_desc_sorted.
Qed.

Lemma insert_desc_filter k x l :
  filter (λ a, key a = k) (insert_desc lt key x l)
  = filter (λ a, key a = k) (x :: l).
Proof.
  induction l as [|y l IH]; cbn [insert_desc]; [done|].
  destruct (lt (key x) (key y)) eqn:Hxy; [|done].
  rewrite filter_cons, IH, !filter_cons.
  destruct (decide (key x = k)) as [Hx|Hx]; [|done].
  destruct (decide (key y = k)) as [Hy|Hy]; [|done].
  rewrite Hx, Hy, lt_irrefl in Hxy. done.
Qed.

Lemma sorted_reverse_stable k l :
  filter (λ a, key a = k) (sorted_reverse lt key l) = filter (λ a, key a = k) l.
Proof.
  induction l as [|x l IH]; cbn [sorted_reverse foldr]; [done|].
  fold (sorted_reverse lt key l).
  by rewrite insert_desc_filter, !filter_cons, IH.
Qed.

End SortedReverse.

Lemma strongly_sorted_weaken {A} (R R' : A → A → Prop) l :
  (∀ a b, R a b → R' a b) → StronglySorted R l → StronglySorted R' l.
Proof.
  intros HR. induction 1; constructor; [done|].
  eapply Forall_impl; [done|]. auto.
Qed.

(** [String.le] is the lexicographic order on the character codes. *)
Lemma string_le_cons c s d t :
  String.le (String c s) (String d t)
  ↔ PyStr.code c < PyStr.code d ∨ (c = d ∧ String.le s t).
Proof.
  assert (PyStr.code c < PyStr.code d ↔ Ascii.compare c d = Lt) as ->.
  { unfold PyStr.code, nat_of_ascii, Ascii.compare.
    by rewrite <- Nat.compare_lt_iff, N2Nat.inj_compare. }
  unfold String.le, String.leb. simpl.
  destruct (Ascii.compare c d) eqn:Hcd.
  - apply Ascii.compare_eq_iff in Hcd as ->. split; [by right|].
    intros [?|[_ ?]]; done.
  - split; [by left|done].
  - split; [done|]. intros [?|[-> _]]; [done|].
    unfold Ascii.compare in Hcd. by rewrite N.compare_refl in Hcd.
Qed.

Lemma string_le_nil_r c s : ¬ String.le (String c s) "".
Proof. unfold String.le, String.leb. simpl. auto. Qed.

(** The order on the timestamps. *)
Lemma string_ltb_leb s t : String.ltb s t = negb (String.leb t s).
Proof.
  unfold String.ltb, String.leb. rewrite (String.compare_antisym t s).
  by destruct (String.compare s t).
Qed.

Lemma string_le_empty s : String.le "" s.
Proof. unfold String.le. by destruct s. Qed.

Lemma score_lt_false x y : score_lt x y = false ↔ score_le y x.
Proof.
  unfold score_lt, score_le, String.le. destruct x as [n s], y as [m t]. simpl.
  rewrite orb_false_iff, andb_false_iff, Nat.ltb_ge, Nat.eqb_neq, string_ltb_leb.
  rewrite negb_false_iff, Is_true_true. split.
  - intros [Hle [Hne|Hs]]; [left; lia|].
    destruct (decide (m = n)) as [->|]; [by right|left; lia].
  - intros [Hlt|[-> Hs]]; [split; [lia|left; lia]|split; [lia|by right]].
Qed.

Lemma score_lt_irrefl x : score_lt x x = false.
Proof. apply score_lt_false. right. split; [done|]. apply (reflexivity (R := String.le)). Qed.

Lemma score_le_trans x y z : score_le x y → score_le y z → score_le x z.
Proof.
  unfold score_le. intros [?|[Hxy ?]] [?|[Hyz ?]]; [left; lia..|].
  right. split; [congruence|]. by etrans.
Qed.

Lemma score_le_total x y : score_le x y ∨ score_le y x.
Proof.
  unfold score_le. destruct (lt_eq_lt_dec x.1 y.1) as [[?|Heq]|?]; [by left; left| |by right; left].
  destruct (total String.le x.2 y.2); [left|right]; right; done.
Qed.

Lemma score_le_antisym x y : score_le x y → score_le y x → x = y.
Proof.
  unfold score_le. destruct x as [n s], y as [m t]. simpl.
  intros [?|[-> Hst]] [?|[? Hts]]; try lia.
  f_equal. by apply (anti_symm String.le).
Qed.

Lemma score_lt_asym x y : score_lt x y = true → score_lt y x = false.
Proof.
  intros Hxy. apply score_lt_false.
  destruct (score_le_total x y) as [?|Hyx]; [done|].
  apply score_lt_false in Hyx. congruence.
Qed.

Lemma score_lt_negtrans x y z :
  score_lt x y = false → score_lt y z = false → score_lt x z = false.
Proof.
  rewrite !score_lt_false. intros ? ?. by eapply score_le_trans.
Qed.

(** C7: [_rerank] permutes its input into descending order of the pair
    (count of [also_reported_by], [published_at]): of two articles the one
    with more cross-references stands first, and of two with as many the
    one whose timestamp is the greater string. Articles with the same count
    and the same timestamp keep their relative order. The timestamps are
    compared as plain strings, character code by character code: the order
    is total, a proper prefix is lower, and the empty timestamp is lowest. *)
Theorem rerank_is_stable_descending_sort (l : list Article) :
  _rerank l ≡ₚ l
  ∧ StronglySorted
      (λ a b, length (also_reported_by b) < length (also_reported_by a)
              ∨ (length (also_reported_by b) = length (also_reported_by a)
                 ∧ String.le (published_at b) (published_at a)))
      (_rerank l)
  ∧ (∀ n s,
       filter (λ a, length (also_reported_by a) = n ∧ published_at a = s)
         (_rerank l)
       = filter (λ a, length (also_reported_by a) = n ∧ published_at a = s) l)
  ∧ (∀ s t, String.le s t ∨ String.le t s)
  ∧ (∀ s, String.le "" s)
  ∧ (∀ c s, ¬ String.le (String c s) "")
  ∧ (∀ c s d t,
       String.le (String c s) (String d t)
       ↔ PyStr.code c < PyStr.code d ∨ (c = d ∧ String.le s t)).
Proof.
  split_and!.
  - apply sorted_reverse_perm.
  - eapply strongly_sorted_weaken; [|apply sorted_reverse_sorted].
    + intros a b Hab. by apply score_lt_false in Hab.
    + apply score_lt_asym.
    + apply score_lt_negtrans.
  - intros n s.
    rewrite (list_filter_iff _ (λ a, _score a = (n, s)) (_rerank l)).
    2:{ intros a. unfold _score. split; [by intros [-> ->]|by intros [= -> ->]]. }
    rewrite (list_filter_iff _ (λ a, _score a = (n, s)) l).
    2:{ intros a. unfold _score. split; [by intros [-> ->]|by intros [= -> ->]]. }
    apply sorted_reverse_stable, score_lt_irrefl.
  - intros s t. apply (total String.le).
  - apply string_le_empty.
  - apply string_le_nil_r.
  - apply string_le_cons.
Qed.

(** The ranking example of the spec, and a tie. *)
Example rerank_three_stories :
  _rerank [story_old; story_big; story_new] = [story_big; story_new; story_old].
Proof. vm_compute. reflexivity. Qed.

Example rerank_keeps_ties_in_order :
  _rerank [wire_a; story_old; wire_b; wire_c] = [story_old; wire_a; wire_b; wire_c].
Proof. vm_compute. reflexivity. Qed.

(** ** The pipeline and the entry point *)

Section ExecuteFacts.
Context `{UrlLib} `{Fetcher}.

Lemma consolidate_returns raw : ∃ out, consolidate raw = Some out.
Proof.
  unfold consolidate.
  destruct (dedup_by_title_returns (_dedup_by_url raw)) as [stories ->].
  by eexists.
Qed.



(** What [execute] returns, by cases on the query and on the fetch. *)
Lemma execute_cases params telemetry :
  ∃ r, execute params telemetry = Some r
    ∧ resp_count r = length (resp_results r)
    ∧ ((resp_meta r = None ∧ resp_results r = [])
       ∨ (∃ m ranked stories,
            resp_meta r = Some m
            ∧ _dedup_by_title (_dedup_by_url (fetched params telemetry).1.1)
              = Some stories
            ∧ ranked = _rerank stories
            ∧ resp_results r = truncate (effective_limit params) ranked
            ∧ article_count_raw m = length (fetched params telemetry).1.1
            ∧ article_count_deduped m = length stories)).
Proof.
  unfold execute, fetched.
  destruct (PyStr.truthy (PyStr.strip (or_empty (param_query params)))); simpl.
  2:{ eexists. split_and!; [done|done|]. by left. }
  destruct (_fetch_with_retry _ _ _ _) as [[raw retry] err]. simpl.
  destruct (dedup_by_title_returns (_dedup_by_url raw)) as [stories Hs].
  destruct err as [e|], raw as [|a raw].
  - eexists. split_and!; [done|done|]. by left.
  - rewrite Hs. simpl. eexists. split_and!; [done|done|].
    right. by eexists _, _, _.
  - rewrite Hs. simpl. eexists. split_and!; [done|done|].
    right. by eexists _, _, _.
  - rewrite Hs. simpl. eexists. split_and!; [done|done|].
    right. by eexists _, _, _.
Qed.

(** C8: every stage maps the empty list to the empty list, no stage raises
    on any input (so on none of the degenerate ones), and when the fetch
    layer returns no article [execute] returns no result, count 0 and zero
    counts in ["_meta"]. *)
Theorem empty_input_is_valid :
  _dedup_by_url [] = []
  ∧ _dedup_by_title [] = Some []
  ∧ _rerank [] = []
  ∧ consolidate [] = Some []
  ∧ (∀ articles, ∃ stories, _dedup_by_title articles = Some stories)
  ∧ (∀ raw, ∃ ranked, consolidate raw = Some ranked)
  ∧ (∀ params telemetry,
       (fetched params telemetry).1.1 = [] →
       ∃ r, execute params telemetry = Some r
         ∧ resp_results r = [] ∧ resp_count r = 0
         ∧ ∀ m, resp_meta r = Some m →
             article_count_raw m = 0 ∧ article_count_deduped m = 0).
Proof.
  split_and!; try reflexivity.
  - intros articles. apply dedup_by_title_returns.
  - apply consolidate_returns.
  - intros params telemetry Hraw.
    destruct (execute_cases params telemetry)
      as (r & Hr & Hc & [[Hm Hres]|(m & ranked & stories & Hm & Hs & -> & Hres & Hn & Hd)]).
    + exists r. rewrite Hc, Hres, Hm. by split_and!.
    + rewrite Hraw in Hs, Hn. injection Hs as <-.
      assert (resp_results r = []) as Hnil.
      { rewrite Hres. unfold truncate. apply take_nil. }
      exists r. rewrite Hc, Hnil, Hm. split_and!; try done.
      intros m' [= <-]. by rewrite Hn, Hd.
Qed.


End ExecuteFacts.

(** ** The entry point on concrete inputs *)

(** Nothing fetched: nothing returned, and no error. *)
Lemma empty_input_is_valid_witness :
  (@fetched silent_fetcher plain_query None).1.1 = []
  ∧ ∃ r, @execute Urllib.cpython silent_fetcher plain_query None = Some r
       ∧ resp_results r = [] ∧ resp_count r = 0
       ∧ ∀ m, resp_meta r = Some m →
           article_count_raw m = 0 ∧ article_count_deduped m = 0.
Proof.
  split; [reflexivity|].
  apply (proj2 (proj2 (proj2 (proj2 (proj2 (proj2
           (@empty_input_is_valid Urllib.cpython silent_fetcher))))))).
  reflexivity.
Defined.


Example execute_canned :
  resp_results <$>
    @execute Urllib.cpython canned_fetcher
      (mkParams (Some " fed ") (Some 1%Z) None None None) None
  = Some [with_also_reported_by wire_c ["B"; "A"; "C"; "A"]].
Proof. vm_compute. reflexivity. Qed.

Example execute_no_query :
  @execute Urllib.cpython canned_fetcher
    (mkParams (Some "  ") (Some 3%Z) None None None) None
  = Some (mkResponse [] 0 "" None None).
Proof. vm_compute. reflexivity. Qed.

Example detect_from_telemetry :
  detect_region (mkParams None None None None None)
    (Some (mkTelemetry "en_gb" (Some "pt-BR"))) = "GB"
  ∧ detect_language (mkParams None None None None None)
      (Some (mkTelemetry "en_gb" (Some "pt-BR"))) = "pt".
Proof. vm_compute. done. Qed.

(** ** More on URL deduplication *)

Section UrlDedupMore.
Context `{UrlLib}.

Lemma survivors_sublist seen l : sublist (survivors seen l) l.
Proof.
  revert seen. induction l as [|a l IH]; intros seen; simpl; [constructor|].
  case_bool_decide; [apply sublist_cons, IH|apply sublist_skip, IH].
Qed.

Lemma survivors_nodup seen l : NoDup (url_key <$> survivors seen l).
Proof.
  revert seen. induction l as [|a l IH]; intros seen; simpl; [constructor|].
  case_bool_decide; [apply IH|].
  rewrite fmap_cons. constructor; [|apply IH].
  intros Hin. apply list_elem_of_fmap in Hin as (b & Hkey & Hb).
  pose proof (survivors_keys ({[url_key a]} ∪ seen) l) as Hall.
  rewrite Forall_forall in Hall. destruct (Hall b Hb) as [_ Hnot].
  apply Hnot. rewrite <- Hkey. apply elem_of_union_l. by apply elem_of_singleton.
Qed.

Lemma survivors_cover seen l a :
  a ∈ l → url_key a ≠ "" → url_key a ∉ seen →
  ∃ b, b ∈ survivors seen l ∧ url_key b = url_key a.
Proof.
  revert seen. induction l as [|c l IH]; intros seen Hin Hne Hns.
  { by apply elem_of_nil in Hin. }
  simpl. apply elem_of_cons in Hin as [->|Hin].
  - rewrite bool_decide_false by tauto. exists c. split; [apply list_elem_of_here|done].
  - case_bool_decide as Hc.
    + by apply IH.
    + destruct (decide (url_key c = url_key a)) as [Heq|Hneq].
      * exists c. split; [apply list_elem_of_here|done].
      * destruct (IH ({[url_key c]} ∪ seen) Hin Hne) as (b & Hb & Hkey).
        { rewrite not_elem_of_union, not_elem_of_singleton. split; [congruence|done]. }
        exists b. split; [by apply list_elem_of_further|done].
Qed.

(** A list without empty, taken or repeated keys is kept as it is. *)
Lemma survivors_fixed seen l :
  Forall (λ a, url_key a ≠ "" ∧ (url_key a ∉ seen)) l →
  NoDup (url_key <$> l) →
  survivors seen l = l.
Proof.
  revert seen. induction l as [|a l IH]; intros seen Hall Hnd; simpl; [done|].
  apply Forall_cons in Hall as [[Hne Hns] Hall].
  rewrite fmap_cons in Hnd. apply NoDup_cons in Hnd as [Hfresh Hnd].
  rewrite bool_decide_false by tauto. f_equal. apply IH; [|done].
  apply Forall_forall. intros b Hb.
  rewrite Forall_forall in Hall. destruct (Hall b Hb) as [? ?].
  split; [done|]. rewrite not_elem_of_union, not_elem_of_singleton.
  split; [|done]. intros Heq. apply Hfresh. rewrite <- Heq.
  apply list_elem_of_fmap. by exists b.
Qed.

(** No two articles of the output of [_dedup_by_url] have the same
    normalized URL, and the output is no longer than the input. *)
Theorem url_dedup_keys_distinct (l : list Article) :
  NoDup (url_key <$> _dedup_by_url l)
  ∧ length (_dedup_by_url l) ≤ length l.
Proof.
  rewrite dedup_by_url_survivors. split; [apply survivors_nodup|].
  apply sublist_length, survivors_sublist.
Qed.

(** Deduplicating by URL a second time changes nothing. *)
Theorem url_dedup_idempotent (l : list Article) :
  _dedup_by_url (_dedup_by_url l) = _dedup_by_url l.
Proof.
  rewrite !dedup_by_url_survivors. apply survivors_fixed; [|apply survivors_nodup].
  apply survivors_keys.
Qed.

(** The output of [_dedup_by_url] is a sublist of the input, and every
    non-empty normalized URL of the input is the one of some output
    article. *)
Theorem url_dedup_loses_no_link (l : list Article) :
  sublist (_dedup_by_url l) l
  ∧ Forall (λ a, url_key a ≠ "" →
                 ∃ b, b ∈ _dedup_by_url l ∧ url_key b = url_key a) l.
Proof.
  rewrite dedup_by_url_survivors. split; [apply survivors_sublist|].
  apply Forall_forall. intros a Ha Hne.
  apply survivors_cover; [done|done|apply not_elem_of_empty].
Qed.

End UrlDedupMore.

(** ** Characters *)

Lemma lower_char_not_upper c : PyStr.isupper (PyStr.lower_char c) = false.
Proof. destruct c as [[] [] [] [] [] [] [] []]; reflexivity. Qed.

Lemma lower_upper_char c : PyStr.lower_char (PyStr.upper_char c) = PyStr.lower_char c.
Proof. destruct c as [[] [] [] [] [] [] [] []]; reflexivity. Qed.

Lemma lower_lower_char c : PyStr.lower_char (PyStr.lower_char c) = PyStr.lower_char c.
Proof. destruct c as [[] [] [] [] [] [] [] []]; reflexivity. Qed.

Lemma upper_upper_char c : PyStr.upper_char (PyStr.upper_char c) = PyStr.upper_char c.
Proof. destruct c as [[] [] [] [] [] [] [] []]; reflexivity. Qed.

Lemma map_map f g s : PyStr.map f (PyStr.map g s) = PyStr.map (λ c, f (g c)) s.
Proof. induction s as [|c s IH]; simpl; [done|]. by rewrite IH. Qed.

Lemma map_ext f g s : (∀ c, f c = g c) → PyStr.map f s = PyStr.map g s.
Proof. intros Hfg. induction s as [|c s IH]; simpl; [done|]. by rewrite Hfg, IH. Qed.

Lemma lower_upper s : PyStr.lower (PyStr.upper s) = PyStr.lower s.
Proof. unfold PyStr.lower, PyStr.upper. rewrite map_map. apply map_ext, lower_upper_char. Qed.

Lemma lower_lower s : PyStr.lower (PyStr.lower s) = PyStr.lower s.
Proof. unfold PyStr.lower. rewrite map_map. apply map_ext, lower_lower_char. Qed.

Lemma upper_upper s : PyStr.upper (PyStr.upper s) = PyStr.upper s.
Proof. unfold PyStr.upper. rewrite map_map. apply map_ext, upper_upper_char. Qed.

Lemma chars_all_map p f s : (∀ c, p (f c) = true) → chars_all p (PyStr.map f s) = true.
Proof. intros Hp. induction s as [|c s IH]; simpl; [done|]. by rewrite Hp, IH. Qed.

Lemma chars_all_filter p q s :
  chars_all p s = true → chars_all p (PyStr.filter q s) = true.
Proof.
  induction s as [|c s IH]; simpl; [done|].
  intros [Hc Hs]%andb_true_iff. destruct (q c); simpl; [by rewrite Hc, IH|by apply IH].
Qed.

Lemma chars_all_filter_self q s : chars_all q (PyStr.filter q s) = true.
Proof.
  induction s as [|c s IH]; simpl; [done|].
  destruct (q c) eqn:Hq; simpl; [by rewrite Hq, IH|done].
Qed.

Lemma chars_all_rev_app p a b :
  chars_all p (String.rev_app a b) = chars_all p a && chars_all p b.
Proof.
  revert b. induction a as [|c a IH]; intros b; simpl; [done|].
  rewrite IH. simpl. by rewrite andb_assoc, (andb_comm (chars_all p a)).
Qed.

Lemma chars_all_rev p s : chars_all p (String.rev s) = chars_all p s.
Proof. unfold String.rev. rewrite chars_all_rev_app. simpl. apply andb_true_r. Qed.

Lemma rev_app_length a b :
  String.length (String.rev_app a b) = String.length a + String.length b.
Proof.
  revert b. induction a as [|c a IH]; intros b; simpl; [done|].
  rewrite IH. simpl. lia.
Qed.

Lemma rev_length s : String.length (String.rev s) = String.length s.
Proof. unfold String.rev. rewrite rev_app_length. simpl. lia. Qed.

Lemma rev_cons_nonempty c s : String.rev (String c s) ≠ "".
Proof.
  intros Heq. pose proof (rev_length (String c s)) as Hlen.
  rewrite Heq in Hlen. simpl in Hlen. lia.
Qed.

(** The words [split] returns are made of the characters of the string
    that are no spaces, and none is empty. *)
Lemma split_go_words p cur s w :
  chars_all p cur = true → chars_all p s = true →
  chars_all (λ c, negb (PyStr.isspace c)) cur = true →
  w ∈ PyStr.split_go cur s →
  chars_all p w = true
  ∧ chars_all (λ c, negb (PyStr.isspace c)) w = true
  ∧ w ≠ "".
Proof.
  revert cur. induction s as [|c s IH]; intros cur Hcur Hs Hns Hw; simpl in Hw.
  - destruct cur as [|d cur]; [by apply elem_of_nil in Hw|].
    apply list_elem_of_singleton in Hw as ->.
    rewrite !chars_all_rev. split_and!; [done|done|apply rev_cons_nonempty].
  - simpl in Hs. apply andb_true_iff in Hs as [Hc Hs].
    destruct (PyStr.isspace c) eqn:Hsp.
    + destruct cur as [|d cur]; [by apply (IH "")|].
      apply elem_of_cons in Hw as [->|Hw]; [|by apply (IH "")].
      rewrite !chars_all_rev. split_and!; [done|done|apply rev_cons_nonempty].
    + apply (IH (String c cur)); simpl; [by rewrite Hc|done|by rewrite Hsp|done].
Qed.

Lemma chars_all_and p q s :
  chars_all p s = true → chars_all q s = true →
  chars_all (λ c, p c && q c) s = true.
Proof.
  induction s as [|c s IH]; simpl; [done|].
  intros [-> ?]%andb_true_iff [-> ?]%andb_true_iff. simpl. by apply IH.
Qed.

Lemma chars_all_impl (p q : ascii → bool) s :
  (∀ c, p c = true → q c = true) → chars_all p s = true → chars_all q s = true.
Proof.
  intros Hpq. induction s as [|c s IH]; simpl; [done|].
  intros [Hc ?]%andb_true_iff. rewrite (Hpq c Hc). by apply IH.
Qed.

(** ** More on title words *)

Lemma title_words_elem t w :
  w ∈ _title_words t ↔
  w ∈ PyStr.split (strip_punctuation (PyStr.lower t))
  ∧ (w ∉ _STOP_WORDS) ∧ 2 < String.length w.
Proof.
  unfold _title_words. rewrite elem_of_list_to_set, list_elem_of_filter. tauto.
Qed.

(** A significant word of an ASCII title consists of lower-case letters,
    digits and underscores only, has more than two characters and is no
    stop word. *)
Theorem title_words_are_plain (t w : string) :
  chars_all is_ascii_char t = true →
  w ∈ _title_words t →
  chars_all is_plain_char w = true ∧ 2 < String.length w ∧ (w ∉ _STOP_WORDS).
Proof.
  intros _ (Hsplit & Hstop & Hlen)%title_words_elem. split_and!; [|done|done].
  unfold PyStr.split in Hsplit.
  apply (split_go_words
           (λ c, (PyStr.isword c || PyStr.isspace c) && negb (PyStr.isupper c)))
    in Hsplit as (Hp & Hns & _); [|done| |done].
  - eapply chars_all_impl; [|apply (chars_all_and _ _ _ Hp Hns)].
    intros c. unfold is_plain_char.
    destruct (PyStr.isword c), (PyStr.isspace c), (PyStr.isupper c); done.
  - apply chars_all_and.
    + apply chars_all_filter_self.
    + apply chars_all_filter, chars_all_map. intros c.
      by rewrite lower_char_not_upper.
Qed.

Lemma title_words_are_plain_witness :
  chars_all is_ascii_char "Fed RAISES rates!" = true
  ∧ "raises" ∈ _title_words "Fed RAISES rates!"
  ∧ chars_all is_plain_char "raises" = true.
Proof.
  assert ("raises" ∈ _title_words "Fed RAISES rates!") as Hin.
  { vm_compute. reflexivity. }
  split; [reflexivity|]. split; [exact Hin|].
  exact (proj1 (title_words_are_plain "Fed RAISES rates!" _ eq_refl Hin)).
Defined.

(** The significant words of an ASCII title do not depend on its case. *)
Theorem title_words_ignore_case (t : string) :
  chars_all is_ascii_char t = true →
  _title_words (PyStr.upper t) = _title_words t
  ∧ _title_words (PyStr.lower t) = _title_words t.
Proof. intros _. unfold _title_words. by rewrite lower_upper, lower_lower. Qed.

Lemma title_words_ignore_case_witness :
  chars_all is_ascii_char "Fed Raises Rates" = true
  ∧ _title_words "FED RAISES RATES" = _title_words "Fed Raises Rates"
  ∧ _title_words "fed raises rates" = _title_words "Fed Raises Rates".
Proof.
  split; [reflexivity|].
  exact (title_words_ignore_case "Fed Raises Rates" eq_refl).
Defined.

(** ** More on the similarity *)

Lemma jaccard_sym a b : _jaccard a b = _jaccard b a.
Proof.
  unfold _jaccard. rewrite (orb_comm (negb (set_truthy a))).
  destruct (negb (set_truthy b) || negb (set_truthy a)); [done|].
  cbn zeta. by rewrite (comm_L (∩) a b), (comm_L (∪) a b).
Qed.

Lemma jaccard_value a b :
  _jaccard a b
  = Some (if bool_decide (a = ∅ ∨ b = ∅) then 0%Q
          else (Z.of_nat (size (a ∩ b)) # Pos.of_nat (size (a ∪ b)))%Q).
Proof.
  unfold _jaccard, set_truthy.
  destruct (decide (a = ∅)) as [->|Ha].
  { rewrite bool_decide_true by done. simpl. by rewrite bool_decide_true by auto. }
  destruct (decide (b = ∅)) as [->|Hb].
  { rewrite (bool_decide_true (∅ = ∅)) by done. rewrite orb_true_r.
    by rewrite bool_decide_true by auto. }
  rewrite !bool_decide_false by tauto. simpl.
  destruct (size (a ∪ b)) as [|n] eqn:Hn; [|done].
  apply size_empty_iff, empty_union in Hn as [Hn _].
  by apply leibniz_equiv in Hn.
Qed.

(** [_jaccard] is symmetric, and so is the similarity test; its value
    lies between 0 and 1. *)
Theorem jaccard_symmetric_and_bounded (a b : gset string) :
  _jaccard a b = _jaccard b a
  ∧ similar a b = similar b a
  ∧ ∃ sim, _jaccard a b = Some sim ∧ (0 <= sim)%Q ∧ (sim <= 1)%Q.
Proof.
  split_and!.
  - apply jaccard_sym.
  - unfold similar. by rewrite jaccard_sym.
  - rewrite jaccard_value. eexists. split; [done|].
    case_bool_decide as Hd; [done|].
    assert (size (a ∩ b) ≤ size (a ∪ b)) as Hle.
    { apply subseteq_size. intros x Hx. apply elem_of_intersection in Hx as [Hx _].
      by apply elem_of_union_l. }
    assert (size (a ∪ b) ≠ 0) as Hnz.
    { intros Hz. apply size_empty_iff, empty_union in Hz as [Hz _].
      apply leibniz_equiv in Hz. tauto. }
    unfold Qle. simpl. split; [lia|].
    rewrite Z.mul_1_r, Z.mul_1_l.
    destruct (size (a ∪ b)) as [|n]; [done|].
    rewrite <- Pos.of_nat_succ, Zpos_P_of_succ_nat. lia.
Qed.

(** A word set passes the similarity test with itself exactly when it is
    not empty, and the empty word set passes it with no set: titles
    without a significant word never merge. *)
Theorem similar_to_itself_iff_words (a : gset string) :
  (similar a a = true ↔ a ≠ ∅)
  ∧ (a = ∅ → ∀ b, similar a b = false ∧ similar b a = false).
Proof.
  assert (∀ b, similar ∅ b = false) as Hempty.
  { intros b. unfold similar. rewrite jaccard_value.
    by rewrite bool_decide_true by auto. }
  split.
  - split.
    + intros Hs ->. by rewrite Hempty in Hs.
    + intros Ha. unfold similar. rewrite jaccard_value.
      rewrite bool_decide_false by tauto.
      rewrite (idemp_L (∩) a), (idemp_L (∪) a).
      apply (proj2 (Qgtb_lt _ _)). unfold Qlt. simpl.
      assert (size a ≠ 0) as Hnz.
      { intros Hz. apply size_empty_iff in Hz. by apply leibniz_equiv in Hz. }
      destruct (size a) as [|n]; [done|].
      rewrite <- Pos.of_nat_succ, Zpos_P_of_succ_nat. lia.
  - intros -> b. split; [apply Hempty|].
    replace (similar b ∅) with (similar ∅ b); [apply Hempty|].
    unfold similar. by rewrite jaccard_sym.
Qed.

Lemma similar_to_itself_iff_words_witness :
  _title_words "The who and the what" = ∅
  ∧ similar (_title_words "The who and the what")
      (_title_words "The who and the what") = false.
Proof.
  assert (_title_words "The who and the what" = ∅) as Hw.
  { vm_compute. reflexivity. }
  split; [exact Hw|].
  exact (proj1 (proj2 (similar_to_itself_iff_words _) Hw _)).
Defined.

(** ** Invariants of the title deduplication *)

Lemma for_each_invariant_in {St X} (body : St → X → option St) (I : St → Prop) xs :
  (∀ s x s', x ∈ xs → body s x = Some s' → I s → I s') →
  ∀ s s', for_each body s xs = Some s' → I s → I s'.
Proof.
  induction xs as [|x xs IH]; intros Hb s s' Hrun Hs; simpl in Hrun.
  { by injection Hrun as <-. }
  destruct (body s x) as [s1|] eqn:Hs1; simpl in Hrun; [|done].
  eapply IH; [|done|].
  - intros s2 y s3 Hy. apply Hb. by apply list_elem_of_further.
  - eapply Hb; [apply list_elem_of_here|done|done].
Qed.

Lemma for_each_invariant_at {St X} (body : St → X → option St)
    (I : nat → St → Prop) xs :
  ∀ n,
  (∀ k s x s', xs !! k = Some x → body s x = Some s' → I (n + k) s → I (n + S k) s') →
  ∀ s s', for_each body s xs = Some s' → I n s → I (n + length xs) s'.
Proof.
  induction xs as [|x xs IH]; intros n Hb s s' Hrun Hs; simpl in Hrun.
  { injection Hrun as <-. simpl. by rewrite Nat.add_0_r. }
  destruct (body s x) as [s1|] eqn:Hs1; simpl in Hrun; [|done].
  replace (n + length (x :: xs)) with (S n + length xs) by (simpl; lia).
  eapply (IH (S n)); [|done|].
  - intros k s2 y s3 Hy Hstep Hk.
    replace (S n + S k) with (n + S (S k)) by lia.
    apply (Hb (S k) s2 y s3); [done|done|].
    by replace (n + S k) with (S n + k) by lia.
  - replace (S n) with (n + 1) by lia.
    apply (Hb 0 s x s1); [done|done|]. by rewrite Nat.add_0_r.
Qed.

Lemma same_story_refl a : same_story a a.
Proof. done. Qed.

Lemma same_story_reset a refs : same_story (with_also_reported_by a refs) a.
Proof. done. Qed.

Lemma same_story_trans a b c : same_story a b → same_story b c → same_story a c.
Proof. unfold same_story. congruence. Qed.

Lemma known_source articles r a :
  articles !! r = Some a → source a ∈ known_names articles.
Proof.
  intros Hr. unfold known_names. apply elem_of_app. left.
  apply list_elem_of_fmap. exists a. split; [done|].
  by eapply list_elem_of_lookup_2.
Qed.

Lemma known_refs articles r a :
  articles !! r = Some a →
  Forall (λ x, x ∈ known_names articles) (also_reported_by a).
Proof.
  intros Hr. apply Forall_forall. intros x Hx. unfold known_names.
  apply elem_of_app. right. apply list_elem_of_join.
  exists (also_reported_by a). split; [done|].
  apply list_elem_of_fmap. exists a. split; [done|].
  by eapply list_elem_of_lookup_2.
Qed.

Lemma scan_init_inv articles i used0 a :
  articles !! i = Some a → scan_inv articles i used0 (scan_init used0 a).
Proof.
  intros Hi. unfold scan_inv, scan_init. simpl. split_and!.
  - done.
  - auto.
  - exists i, a. split_and!; [done|done|by left].
  - by eapply known_refs.
Qed.

Lemma merge_inv articles i used0 st j seed other :
  articles !! i = Some seed → articles !! j = Some other →
  i < j → j ∉ sc_used st →
  scan_inv articles i used0 st →
  scan_inv articles i used0 (merge seed other j st).
Proof.
  intros Hi Hj Hij Hfresh (Hsub & Hnew & (r & a & Hr & Hsame & Hwhere) & Hrefs).
  assert (j < length articles) as Hjn by by eapply lookup_lt_Some.
  assert (Forall (λ x, x ∈ known_names articles)
            (if PyStr.truthy (source other)
                && negb (bool_decide (source other = source (sc_article st)))
             then (sc_refs st ++ [source other])%list else sc_refs st)) as Hrefs1.
  { destruct (_ && _); [|done]. apply Forall_app. split; [done|].
    apply Forall_singleton. by eapply known_source. }
  unfold scan_inv, merge.
  destruct (score_gt (rep_score other) (rep_score (sc_article st))); simpl.
  - split_and!.
    + intros u Hu. apply elem_of_union_r. by apply Hsub.
    + intros u [->%elem_of_singleton|Hu]%elem_of_union; [right; lia|by apply Hnew].
    + exists j, other. split_and!; [done|done|]. right. split.
      * apply elem_of_union_l. by apply elem_of_singleton.
      * intros Hin. by apply Hfresh, Hsub.
    + destruct (negb (bool_decide (source other = source seed))); [|done].
      apply Forall_app. split; [done|].
      apply Forall_singleton. by eapply known_source.
  - split_and!.
    + intros u Hu. apply elem_of_union_r. by apply Hsub.
    + intros u [->%elem_of_singleton|Hu]%elem_of_union; [right; lia|by apply Hnew].
    + exists r, a. split_and!; [done|done|].
      destruct Hwhere as [->|[Hin Hout]]; [by left|right]. split; [|done].
      by apply elem_of_union_r.
    + done.
Qed.

Lemma scan_step_inv articles i used0 st j st' :
  i < length articles → i < j →
  scan_step articles i st j = Some st' →
  scan_inv articles i used0 st → scan_inv articles i used0 st'.
Proof.
  intros Hi Hij Hstep Hinv. unfold scan_step in Hstep.
  case_bool_decide as Hu; [by injection Hstep as <-|].
  destruct (articles !! j) as [other|] eqn:Hj; simpl in Hstep; [|done].
  destruct (_jaccard _ _) as [sim|]; simpl in Hstep; [|done].
  destruct (Qgtb sim (1 # 2)); [|by injection Hstep as <-].
  destruct (articles !! i) as [seed|] eqn:Hseed; simpl in Hstep; [|done].
  injection Hstep as <-. by eapply merge_inv.
Qed.

(** The invariant holds when the inner loop is left. *)
Lemma scan_inv_end articles used0 i a sc :
  articles !! i = Some a →
  scan articles used0 i a = Some sc →
  scan_inv articles i used0 sc.
Proof.
  intros Hi Hscan. unfold scan in Hscan.
  eapply (for_each_invariant_in _ (scan_inv articles i used0)); [|done|].
  - intros s j s' Hj. apply scan_step_inv.
    + by eapply lookup_lt_Some.
    + pose proof (later_in_range articles i) as Hall.
      rewrite Forall_forall in Hall. by apply Hall in Hj as [? _].
  - by apply scan_init_inv.
Qed.

Lemma enumerate_lookup_at {A} (l : list A) k x :
  enumerate l !! k = Some x → ∃ a, x = (k, a) ∧ l !! k = Some a.
Proof.
  unfold enumerate. rewrite list_lookup_imap.
  destruct (l !! k) as [a|]; simpl; [|done].
  intros [= <-]. by exists a.
Qed.

Lemma enumerate_length {A} (l : list A) : length (enumerate l) = length l.
Proof. unfold enumerate. apply length_imap. Qed.

Lemma title_step_inv articles k a st st' reps :
  articles !! k = Some a →
  title_step articles st (k, a) = Some st' →
  title_inv articles reps k st →
  ∃ reps', title_inv articles reps' (S k) st'.
Proof.
  intros Hk Hstep (Hused & Hreps & Hnd & Hwhere & Hnames & Hne).
  destruct st as [used out]. simpl in *. unfold title_step in Hstep.
  case_bool_decide as Hin.
  - injection Hstep as <-. exists reps. unfold title_inv. simpl. split_and!; try done.
    + eapply Forall_impl; [done|]. simpl. intros r [?|?]; [by left|right; lia].
    + intros _. apply Hne. apply Hused in Hin. lia.
  - destruct (scan articles used k a) as [sc|] eqn:Hscan; simpl in Hstep; [|done].
    injection Hstep as <-.
    destruct (scan_inv_end articles used k a sc Hk Hscan)
      as (Hsub & Hnew & (r & b & Hr & Hsame & Hrk) & Hrefs).
    exists (reps ++ [r])%list. unfold title_inv. simpl. split_and!.
    + intros u Hu. apply Hnew in Hu as [Hu|Hu]; [by apply Hused|lia].
    + apply Forall2_app; [done|]. constructor; [|constructor].
      exists b. split; [done|].
      eapply same_story_trans; [apply same_story_reset|done].
    + apply NoDup_app. split_and!; [done| |apply NoDup_singleton].
      intros r0 Hr0 ->%list_elem_of_singleton.
      rewrite Forall_forall in Hwhere. destruct (Hwhere _ Hr0) as [Hu|Hlt].
      * destruct Hrk as [->|[_ Hout]]; done.
      * destruct Hrk as [->|[Hnow Hout]]; [lia|].
        apply Hnew in Hnow as [?|?]; [done|lia].
    + apply Forall_app. split.
      * eapply Forall_impl; [done|]. simpl. intros r0 [?|?]; [left; by apply Hsub|right; lia].
      * apply Forall_singleton. destruct Hrk as [->|[? _]]; [right; lia|by left].
    + apply Forall_app. split; [done|]. by apply Forall_singleton.
    + intros _. by destruct out.
Qed.

(** The invariant holds of what [_dedup_by_title] returns. *)
Lemma dedup_by_title_inv articles :
  ∃ stories used reps,
    _dedup_by_title articles = Some stories
    ∧ title_inv articles reps (length articles) (used, stories).
Proof.
  destruct (dedup_by_title_returns articles) as [stories Hs].
  unfold _dedup_by_title in Hs.
  destruct (for_each _ _ _) as [[used out]|] eqn:Hrun; [|done].
  simpl in Hs. injection Hs as <-.
  destruct (for_each_invariant_at (title_step articles)
              (λ k st, ∃ reps, title_inv articles reps k st)
              (enumerate articles) 0) with (s := ((∅ : gset nat), ([] : list Article)))
              (s' := (used, out)) as [reps Hinv].
  - intros k st x st' Hx Hstep [reps Hinv]. simpl in *.
    apply enumerate_lookup_at in Hx as (a & -> & Ha).
    by eapply title_step_inv.
  - done.
  - exists []. unfold title_inv. simpl.
    split_and!; [|constructor|constructor|constructor|constructor|lia].
    intros u Hu. by apply elem_of_empty in Hu.
  - simpl in Hinv. rewrite enumerate_length in Hinv.
    exists out, used, reps. split; [|done].
    unfold _dedup_by_title. by rewrite Hrun.
Qed.

(** [_dedup_by_title] returns stories that are articles of the input at
    pairwise distinct positions, each up to its cross-references: it
    invents no article and emits none twice. There are at most as many
    stories as articles, and at least one when there is an article. *)
Theorem title_dedup_stories_are_input_articles (articles : list Article) :
  ∃ stories reps,
    _dedup_by_title articles = Some stories
    ∧ NoDup reps
    ∧ Forall2 (story_at articles) reps stories
    ∧ length stories ≤ length articles
    ∧ (articles ≠ [] → stories ≠ []).
Proof.
  destruct (dedup_by_title_inv articles)
    as (stories & used & reps & Hrun & Hused & Hreps & Hnd & Hwhere & _ & Hne).
  simpl in *. exists stories, reps. split_and!; try done.
  - rewrite <- (Forall2_length _ _ _ Hreps).
    transitivity (length (seq 0 (length articles))); [|by rewrite length_seq].
    apply submseteq_length, NoDup_submseteq; [done|].
    intros r Hr. apply elem_of_seq.
    apply list_elem_of_lookup in Hr as [i Hi].
    destruct (Forall2_lookup_l _ _ _ _ _ Hreps Hi) as (s & _ & a & Ha & _).
    apply lookup_lt_Some in Ha. lia.
  - intros Hnil. apply Hne. destruct articles; [done|simpl; lia].
Qed.

(** Every cross-reference of every story is a name that occurs in the
    input: a source, or a cross-reference an article already carried; when
    no article carries any, as out of [_normalize_article], it is the
    source of an input article. *)
Theorem title_dedup_cross_references_are_known (articles : list Article) :
  ∃ stories,
    _dedup_by_title articles = Some stories
    ∧ Forall (λ s, Forall (λ x, x ∈ known_names articles) (also_reported_by s))
        stories
    ∧ (Forall (λ a, also_reported_by a = []) articles →
       Forall (λ s, Forall (λ x, x ∈ source <$> articles) (also_reported_by s))
         stories).
Proof.
  destruct (dedup_by_title_inv articles)
    as (stories & used & reps & Hrun & _ & _ & _ & _ & Hnames & _).
  simpl in *. exists stories. split_and!; [done|done|].
  intros Hfresh.
  assert (mjoin (also_reported_by <$> articles) = []) as Hnil.
  { clear -Hfresh. induction Hfresh as [|a l Ha _ IH]; [done|].
    rewrite fmap_cons.
    change (mjoin (also_reported_by a :: (also_reported_by <$> l)))
      with (also_reported_by a ++ mjoin (also_reported_by <$> l))%list.
    by rewrite Ha, IH. }
  eapply Forall_impl; [done|]. simpl. intros s Hs.
  eapply Forall_impl; [done|]. simpl. intros x Hx.
  unfold known_names in Hx. by rewrite Hnil, app_nil_r in Hx.
Qed.

(** ** Inputs without similar titles, and inputs with one title *)

Lemma with_own_also_reported_by a :
  with_also_reported_by a (also_reported_by a) = a.
Proof. by destruct a. Qed.

Lemma imap_pair_snd {A} (g : nat → nat) (l : list A) :
  (imap (λ i x, (g i, x)) l).*2 = l.
Proof.
  revert g. induction l as [|x l IH]; intros g; simpl; [done|].
  f_equal. apply (IH (g ∘ S)).
Qed.

Lemma enumerate_snd {A} (l : list A) : (enumerate l).*2 = l.
Proof. apply (imap_pair_snd id). Qed.

(** The inner loop leaves its variables as they are when no later title
    is similar to that of [a]. *)
Lemma scan_without_similar articles i a :
  articles !! i = Some a →
  (∀ j b, i < j → articles !! j = Some b →
          similar (_title_words (title a)) (_title_words (title b)) = false) →
  scan articles ∅ i a = Some (scan_init ∅ a).
Proof.
  intros Hi Hdis. unfold scan.
  pose proof (later_in_range articles i) as Hrange.
  induction (later articles i) as [|j js IH]; simpl; [done|].
  apply Forall_cons in Hrange as [[Hij Hjn] Hrange].
  destruct (lookup_lt_is_Some_2 articles j Hjn) as [b Hb].
  rewrite (scan_step_fresh articles i _ j a b); [|done|done|apply not_elem_of_empty].
  cbn [sc_words scan_init]. rewrite (Hdis j b Hij Hb). simpl. by apply IH.
Qed.

(** When no title is similar to a later one, [_dedup_by_title] returns
    its input as it is: nothing merged, nothing reordered, no
    cross-reference added. *)
Theorem title_dedup_keeps_dissimilar_input (articles : list Article) :
  (∀ i j a b, i < j → articles !! i = Some a → articles !! j = Some b →
     similar (_title_words (title a)) (_title_words (title b)) = false) →
  _dedup_by_title articles = Some articles.
Proof.
  intros Hdis. unfold _dedup_by_title.
  assert (∀ xs out, Forall (λ ia, articles !! ia.1 = Some ia.2) xs →
            for_each (title_step articles) (∅, out) xs
            = Some (∅, (out ++ xs.*2)%list)) as Hgen.
  { induction xs as [|[i a] xs IH]; intros out Hxs; cbn [for_each].
    { simpl. by rewrite app_nil_r. }
    apply Forall_cons in Hxs as [Hi Hxs]. simpl in Hi.
    rewrite title_step_fresh by apply not_elem_of_empty.
    rewrite scan_without_similar; [|done|].
    2:{ intros j b Hij Hb. by eapply Hdis. }
    simpl. rewrite with_own_also_reported_by, IH by done.
    by rewrite <- app_assoc. }
  rewrite Hgen by apply enumerate_lookup. simpl. by rewrite enumerate_snd.
Qed.

Lemma title_dedup_keeps_dissimilar_input_witness :
  _dedup_by_title [linked_first; wire_a] = Some [linked_first; wire_a].
Proof.
  apply title_dedup_keeps_dissimilar_input.
  intros [|[|i]] [|[|j]] a b Hij Ha Hb; simpl in Ha, Hb; try lia; try done.
  injection Ha as <-. injection Hb as <-. vm_compute. reflexivity.
Defined.

(** A non-empty word set is similar to itself. *)
Lemma similar_refl (W : gset string) : W ≠ ∅ → similar W W = true.
Proof.
  intros HW. unfold similar. rewrite jaccard_value.
  rewrite bool_decide_false by tauto.
  rewrite (idemp_L (∩) W), (idemp_L (∪) W).
  apply (proj2 (Qgtb_lt _ _)). unfold Qlt. simpl.
  assert (size W ≠ 0) as Hnz.
  { intros Hz. apply size_empty_iff in Hz. by apply leibniz_equiv in Hz. }
  destruct (size W) as [|n]; [done|].
  rewrite <- Pos.of_nat_succ, Zpos_P_of_succ_nat. lia.
Qed.

(** When all titles have the word set [W], the inner loop consumes every
    later article. *)
Lemma scan_same_words articles used0 i a (W : gset string) :
  W ≠ ∅ →
  Forall (λ b, _title_words (title b) = W) articles →
  articles !! i = Some a →
  ∃ sc, scan articles used0 i a = Some sc
        ∧ ∀ j, i < j < length articles → j ∈ sc_used sc.
Proof.
  intros HW Hall Hi.
  assert (i < length articles) as Hin by by eapply lookup_lt_Some.
  destruct (scan_returns articles used0 i a Hin) as [sc Hsc].
  exists sc. split; [done|].
  unfold scan in Hsc.
  pose proof (for_each_invariant_at (scan_step articles i)
                (λ k st, sc_words st = W
                         ∧ ∀ j, i < j < i + 1 + k → j ∈ sc_used st)
                (later articles i) 0) as Hinv.
  simpl in Hinv. destruct (Hinv) with (s := scan_init used0 a) (s' := sc)
    as [_ Hused]; [|done| |].
  - intros k st x st' Hx Hstep [Hw Hu].
    unfold later in Hx. apply lookup_seq in Hx as [-> Hk].
    assert (i + 1 + k < length articles) as Hjn by lia.
    destruct (lookup_lt_is_Some_2 articles _ Hjn) as [b Hb].
    rewrite (scan_step_eq articles i st _ a b) in Hstep by done.
    injection Hstep as <-.
    assert (_title_words (title b) = W) as Hwb.
    { rewrite Forall_forall in Hall. apply Hall. by eapply list_elem_of_lookup_2. }
    case_bool_decide as Hold.
    + split; [done|]. intros j Hj.
      destruct (decide (j = i + 1 + k)) as [->|]; [done|apply Hu; lia].
    + rewrite Hw, Hwb, similar_refl by done. split.
      * destruct (score_gt (rep_score b) (rep_score (sc_article st))) eqn:Hgt.
        -- by destruct (merge_swap a b (i + 1 + k) st Hgt) as [_ ->].
        -- by destruct (merge_keep a b (i + 1 + k) st Hgt) as [_ ->].
      * intros j Hj. rewrite merge_used.
        destruct (decide (j = i + 1 + k)) as [->|].
        -- apply elem_of_union_l. by apply elem_of_singleton.
        -- apply elem_of_union_r, Hu. lia.
  - split.
    + simpl. rewrite Forall_forall in Hall. apply Hall.
      by eapply list_elem_of_lookup_2.
    + intros j Hj. lia.
  - intros j Hj. apply Hused. unfold later. rewrite length_seq. lia.
Qed.

Lemma for_each_all_used articles (used : gset nat) out xs :
  Forall (λ ia : nat * Article, ia.1 ∈ used) xs →
  for_each (title_step articles) (used, out) xs = Some (used, out).
Proof.
  induction 1 as [|[i a] xs Hi _ IH]; cbn [for_each]; [done|].
  simpl in Hi. by rewrite title_step_used.
Qed.

(** When all titles have one and the same non-empty set of significant
    words, [_dedup_by_title] returns a single story. *)
Theorem title_dedup_merges_one_title (articles : list Article) (W : gset string) :
  articles ≠ [] → W ≠ ∅ →
  Forall (λ a, _title_words (title a) = W) articles →
  ∃ story, _dedup_by_title articles = Some [story].
Proof.
  intros Hne HW Hall. destruct articles as [|a0 rest]; [done|].
  destruct (scan_same_words (a0 :: rest) ∅ 0 a0 W HW Hall eq_refl)
    as (sc & Hsc & Hused).
  exists (with_also_reported_by (sc_article sc) (sc_refs sc)).
  unfold _dedup_by_title, enumerate. cbn [imap for_each].
  rewrite title_step_fresh by apply not_elem_of_empty.
  rewrite Hsc. cbn [mbind option_bind]. rewrite for_each_all_used; [done|].
  apply Forall_forall. intros [i a] Hia.
  apply elem_of_lookup_imap in Hia as (k & x & [= -> ->] & Hk).
  apply lookup_lt_Some in Hk. simpl. apply Hused. simpl. lia.
Qed.

Lemma title_dedup_merges_one_title_witness :
  ∃ story, _dedup_by_title [wire_a; wire_b; wire_c] = Some [story].
Proof.
  apply (title_dedup_merges_one_title _ (_title_words (title wire_a))).
  - done.
  - vm_compute. discriminate.
  - repeat constructor.
Defined.

(** ** The pipeline on the object store *)

(** *** Running a statement *)

Lemma run_bind {A B} (m : Store.M A) (f : A → Store.M B) h x h' :
  m h = Some (x, h') → (m ≫= f) h = f x h'.
Proof. intros Hm. unfold mbind, Store.M_bind. by rewrite Hm. Qed.

Lemma run_load_dict h l d :
  h !! l = Some (Store.ODict d) → Store.load_dict l h = Some (d, h).
Proof.
  intros Hl. unfold Store.load_dict.
  rewrite (run_bind _ _ h (Store.ODict d) h); [done|].
  unfold Store.load. by rewrite Hl.
Qed.

Lemma run_load_strs h l xs :
  h !! l = Some (Store.OStrs xs) → Store.load_strs l h = Some (xs, h).
Proof.
  intros Hl. unfold Store.load_strs.
  rewrite (run_bind _ _ h (Store.OStrs xs) h); [done|].
  unfold Store.load. by rewrite Hl.
Qed.

Lemma run_load_refs h l rs :
  h !! l = Some (Store.ORefs rs) → Store.load_refs l h = Some (rs, h).
Proof.
  intros Hl. unfold Store.load_refs.
  rewrite (run_bind _ _ h (Store.ORefs rs) h); [done|].
  unfold Store.load. by rewrite Hl.
Qed.

Lemma run_store h l o :
  l < length h → Store.store l o h = Some (tt, <[l := o]> h).
Proof. intros Hl. unfold Store.store. by rewrite bool_decide_true. Qed.

Lemma run_append_str h l xs x :
  h !! l = Some (Store.OStrs xs) →
  Store.append_str l x h = Some (tt, <[l := Store.OStrs (xs ++ [x])]> h).
Proof.
  intros Hl. unfold Store.append_str.
  rewrite (run_bind _ _ h xs h) by by apply run_load_strs.
  apply run_store. by eapply lookup_lt_Some.
Qed.

Lemma run_append_ref h l rs r :
  h !! l = Some (Store.ORefs rs) →
  Store.append_ref l r h = Some (tt, <[l := Store.ORefs (rs ++ [r])]> h).
Proof.
  intros Hl. unfold Store.append_ref.
  rewrite (run_bind _ _ h rs h) by by apply run_load_refs.
  apply run_store. by eapply lookup_lt_Some.
Qed.

Lemma run_item h l rs i r :
  h !! l = Some (Store.ORefs rs) → rs !! i = Some r →
  Store.item l i h = Some (r, h).
Proof.
  intros Hl Hi. unfold Store.item.
  rewrite (run_bind _ _ h rs h) by by apply run_load_refs.
  unfold Store.lift. by rewrite Hi.
Qed.

Lemma run_len h l rs :
  h !! l = Some (Store.ORefs rs) → Store.len l h = Some (length rs, h).
Proof.
  intros Hl. unfold Store.len.
  by rewrite (run_bind _ _ h rs h) by by apply run_load_refs.
Qed.

(** *** The store grows, and what it held is read as before *)

Lemma lookup_alloc h (o : Store.Obj) : (h ++ [o])%list !! length h = Some o.
Proof. by rewrite lookup_app_r, Nat.sub_diag. Qed.

Lemma prefix_store (h0 h : list Store.Obj) l o :
  h0 `prefix_of` h → length h0 ≤ l → h0 `prefix_of` <[l := o]> h.
Proof.
  intros [k ->] Hl. exists (<[l - length h0 := o]> k).
  by rewrite insert_app_r_alt.
Qed.

Lemma read_article_intro h r d refs :
  h !! r = Some (Store.ODict d) →
  h !! Store.d_also_reported_by d = Some (Store.OStrs refs) →
  Store.read_article h r = Some (Store.to_article d refs).
Proof. intros Hr Hl. unfold Store.read_article. rewrite Hr. simpl. by rewrite Hl. Qed.

Lemma read_article_elim h r a :
  Store.read_article h r = Some a →
  ∃ d, h !! r = Some (Store.ODict d)
       ∧ h !! Store.d_also_reported_by d = Some (Store.OStrs (also_reported_by a))
       ∧ a = Store.to_article d (also_reported_by a).
Proof.
  unfold Store.read_article. destruct (h !! r) as [[d| |]|]; simpl; try done.
  destruct (h !! Store.d_also_reported_by d) as [[|refs|]|] eqn:Hl; simpl; try done.
  intros [= <-]. by exists d.
Qed.

Lemma read_article_prefix h h' r a :
  h `prefix_of` h' →
  Store.read_article h r = Some a → Store.read_article h' r = Some a.
Proof.
  intros Hp (d & Hr & Hl & ->)%read_article_elim.
  apply read_article_intro; by eapply prefix_lookup_Some.
Qed.

(** A store into a list of dicts changes no article. *)
Lemma read_article_store_refs h l rs rs' r a :
  h !! l = Some (Store.ORefs rs) →
  Store.read_article h r = Some a →
  Store.read_article (<[l := Store.ORefs rs']> h) r = Some a.
Proof.
  intros Hl (d & Hr & Hd & ->)%read_article_elim.
  apply read_article_intro; rewrite list_lookup_insert_ne; congruence.
Qed.

Lemma read_list_intro h l rs arts :
  h !! l = Some (Store.ORefs rs) →
  Forall2 (λ r a, Store.read_article h r = Some a) rs arts →
  Store.read_list h l = Some arts.
Proof.
  intros Hl Hrs. unfold Store.read_list. rewrite Hl. simpl.
  by apply mapM_Some.
Qed.

Lemma read_list_elim h l arts :
  Store.read_list h l = Some arts →
  ∃ rs, h !! l = Some (Store.ORefs rs)
        ∧ Forall2 (λ r a, Store.read_article h r = Some a) rs arts.
Proof.
  unfold Store.read_list. destruct (h !! l) as [[|?|rs]|]; simpl; try done.
  intros Hm%mapM_Some. by exists rs.
Qed.

Lemma read_items_prefix h h' rs arts :
  h `prefix_of` h' →
  Forall2 (λ r a, Store.read_article h r = Some a) rs arts →
  Forall2 (λ r a, Store.read_article h' r = Some a) rs arts.
Proof.
  intros Hp Hrs. eapply Forall2_impl; [exact Hrs|].
  intros r a. by apply read_article_prefix.
Qed.

Lemma read_list_prefix h h' l arts :
  h `prefix_of` h' →
  Store.read_list h l = Some arts → Store.read_list h' l = Some arts.
Proof.
  intros Hp (rs & Hl & Hrs)%read_list_elim.
  apply (read_list_intro _ _ rs).
  - by eapply prefix_lookup_Some.
  - by eapply read_items_prefix.
Qed.

(** *** The URL deduplication on the store *)

Section StoreUrl.
Context `{UrlLib}.
Variable h : list Store.Obj.

Lemma seen_rel_keys ms ps : seen_rel h ms ps → ms.*1 = ps.*1.
Proof.
  induction 1 as [|[k r] [k' a] ms ps [Hk _] _ IH]; [done|].
  rewrite !fmap_cons. simpl in *. congruence.
Qed.

Lemma seen_rel_set ms ps k r a :
  seen_rel h ms ps → Store.read_article h r = Some a →
  seen_rel h (dict_set k r ms) (dict_set k a ps).
Proof.
  intros Hrel Hr.
  induction Hrel as [|[k1 r1] [k2 a2] ms ps [Hk Hr1] Hrest IH]; simpl in *.
  - constructor; [done|constructor].
  - subst k2. destruct (decide (k1 = k)).
    + constructor; [done|exact Hrest].
    + constructor; [done|]. apply IH.
Qed.

Lemma url_loop_store rs raw ms ps :
  Forall2 (λ r a, Store.read_article h r = Some a) rs raw →
  seen_rel h ms ps →
  ∃ ms', Store.for_each Store.url_step ms rs h = Some (ms', h)
         ∧ seen_rel h ms' (foldl url_step ps raw).
Proof.
  intros Hrs. revert ms ps.
  induction Hrs as [|r a rs raw Hr _ IH]; intros ms ps Hrel; simpl.
  { by exists ms. }
  destruct (read_article_elim _ _ _ Hr) as (d & Hd & _ & Ha).
  assert (Store.d_url d = url a) as Hurl by (by rewrite Ha).
  assert (Store.url_step ms r h
          = Some (if negb (PyStr.truthy (_normalize_url (url a)))
                     || dict_contains (_normalize_url (url a)) ps
                  then ms
                  else dict_set (_normalize_url (url a)) r ms, h)) as Hstep.
  { unfold Store.url_step.
    rewrite (run_bind _ _ h d h) by by apply run_load_dict.
    rewrite Hurl. unfold dict_contains. rewrite (seen_rel_keys ms ps Hrel).
    by destruct (_ || _). }
  rewrite (run_bind _ _ _ _ _ Hstep).
  unfold url_step at 2. fold (dict_contains (_normalize_url (url a)) ps).
  destruct (negb _ || dict_contains _ ps); apply IH; [done|].
  by apply seen_rel_set.
Qed.

Lemma seen_rel_values ms ps :
  seen_rel h ms ps →
  Forall2 (λ r a, Store.read_article h r = Some a) (dict_values ms) (dict_values ps).
Proof.
  unfold dict_values.
  induction 1 as [|[k r] [k' a] ms ps [_ Hr] _ IH]; rewrite ?fmap_cons;
    by constructor.
Qed.

Lemma dedup_by_url_store articles raw :
  Store.read_list h articles = Some raw →
  ∃ out h', Store._dedup_by_url articles h = Some (out, h')
            ∧ h `prefix_of` h'
            ∧ Store.read_list h' out = Some (_dedup_by_url raw).
Proof.
  intros (rs & Hl & Hrs)%read_list_elim.
  destruct (url_loop_store rs raw [] [] Hrs) as (ms & Hloop & Hrel);
    [constructor|].
  exists (length h), (h ++ [Store.ORefs (dict_values ms)])%list. split_and!.
  - unfold Store._dedup_by_url.
    rewrite (run_bind _ _ h rs h) by by apply run_load_refs.
    by rewrite (run_bind _ _ _ _ _ Hloop).
  - by apply prefix_app_r.
  - apply (read_list_intro _ _ (dict_values ms)); [apply lookup_alloc|].
    apply (read_items_prefix h); [by apply prefix_app_r|].
    by apply seen_rel_values.
Qed.

End StoreUrl.

(** *** Sets in any order of iteration *)

Section StoreSets.
Context `{Store.Hashing}.

Lemma title_words_holds t : holds (Store._title_words t) (_title_words t).
Proof.
  unfold Store._title_words, _title_words.
  destruct (Store.set_of_spec
              (filter (λ w, (w ∉ _STOP_WORDS) ∧ (2 < String.length w))
                 (PyStr.split (strip_punctuation (PyStr.lower t)))))
    as [Hnd Hel].
  split; [done|]. apply set_eq. intros w.
  rewrite !elem_of_list_to_set. apply Hel.
Qed.

Lemma set_truthy_holds ws W : holds ws W → Store.set_truthy ws = set_truthy W.
Proof.
  intros [_ <-]. unfold set_truthy. destruct ws as [|w ws]; simpl.
  - by rewrite bool_decide_true.
  - rewrite bool_decide_false; [done|].
    intros He. assert (w ∈ (∅ : gset string)) as Hw.
    { rewrite <- He. apply elem_of_union_l. by apply elem_of_singleton. }
    by apply not_elem_of_empty in Hw.
Qed.

Lemma jaccard_holds a b A B :
  holds a A → holds b B → Store._jaccard a b = _jaccard A B.
Proof.
  intros Ha Hb. unfold Store._jaccard, _jaccard.
  rewrite (set_truthy_holds a A Ha), (set_truthy_holds b B Hb).
  destruct (negb (set_truthy A) || negb (set_truthy B)); [done|].
  destruct Ha as [Hna <-], Hb as [Hnb <-].
  destruct (Store.set_and_spec a b Hna Hnb) as [Hni Hi].
  destruct (Store.set_or_spec a b Hna Hnb) as [Hnu Hu].
  rewrite <- (size_list_to_set (C := gset string) (Store.set_and a b)) by done.
  rewrite <- (size_list_to_set (C := gset string) (Store.set_or a b)) by done.
  f_equal; f_equal; apply set_eq; intros w.
  - rewrite elem_of_intersection, !elem_of_list_to_set. apply Hi.
  - rewrite elem_of_union, !elem_of_list_to_set. apply Hu.
Qed.

End StoreSets.

(** *** The title deduplication on the store *)

(** A loop on the store follows the loop of the stage when its body
    does. *)
Lemma for_each_store {Sp Sm Xp Xm} (bp : Sp → Xp → option Sp)
    (bm : Sm → Xm → Store.M Sm) (R : list Store.Obj → Sm → Sp → Prop)
    (Rx : Xm → Xp → Prop) xsm xsp :
  Forall2 Rx xsm xsp →
  (∀ h sm sp xm xp sp',
     Rx xm xp → R h sm sp → bp sp xp = Some sp' →
     ∃ sm' h', bm sm xm h = Some (sm', h') ∧ R h' sm' sp') →
  ∀ h sm sp sp',
    R h sm sp → for_each bp sp xsp = Some sp' →
    ∃ sm' h', Store.for_each bm sm xsm h = Some (sm', h') ∧ R h' sm' sp'.
Proof.
  intros Hxs Hbody.
  induction Hxs as [|xm xp xsm xsp Hx _ IH]; intros h sm sp sp' HR Hrun;
    cbn [for_each Store.for_each] in *.
  { injection Hrun as <-. by exists sm, h. }
  destruct (bp sp xp) as [sp1|] eqn:Hstep; [|done]. cbn [mbind option_bind] in Hrun.
  destruct (Hbody h sm sp xm xp sp1 Hx HR Hstep) as (sm1 & h1 & Hm & HR1).
  rewrite (run_bind _ _ _ _ _ Hm). by eapply IH.
Qed.

Lemma Forall2_diag {A} (l : list A) : Forall2 eq l l.
Proof. induction l; by constructor. Qed.

(** [also_reported_by.append(x)] under a condition: the list at [a] is the
    one object that changes. *)
Lemma run_append_if (c : bool) (hi h : list Store.Obj) a xs x :
  hi `prefix_of` h → length hi ≤ a → h !! a = Some (Store.OStrs xs) →
  ∃ h1, (if c then Store.append_str a x else mret tt) h = Some (tt, h1)
        ∧ hi `prefix_of` h1
        ∧ h1 !! a = Some (Store.OStrs (if c then (xs ++ [x])%list else xs))
        ∧ length h1 = length h
        ∧ ∀ l, l ≠ a → h1 !! l = h !! l.
Proof.
  intros Hp Hge Ha. destruct c.
  - exists (<[a := Store.OStrs (xs ++ [x])]> h). split_and!.
    + by apply run_append_str.
    + by apply prefix_store.
    + apply list_lookup_insert_eq. by eapply lookup_lt_Some.
    + apply length_insert.
    + intros l Hl. by apply list_lookup_insert_ne.
  - exists h. by split_and!.
Qed.

Section StoreTitle.
Context `{Store.Hashing}.
Variables (hs : list Store.Obj) (articles : nat).
Variables (items : list nat) (arts : list Article).
Hypothesis Hitems : hs !! articles = Some (Store.ORefs items).
Hypothesis Harts : Forall2 (λ r a, Store.read_article hs r = Some a) items arts.

(** [articles[j]] in a store that has grown from [hs]. *)
Lemma input_item h j other :
  hs `prefix_of` h → arts !! j = Some other →
  ∃ r d, items !! j = Some r
         ∧ Store.item articles j h = Some (r, h)
         ∧ h !! r = Some (Store.ODict d)
         ∧ h !! Store.d_also_reported_by d
           = Some (Store.OStrs (also_reported_by other))
         ∧ other = Store.to_article d (also_reported_by other).
Proof.
  intros Hp Hj.
  destruct (Forall2_lookup_r _ _ _ _ _ Harts Hj) as (r & Hr & Hread).
  destruct (read_article_elim _ _ _ Hread) as (d & Hd & Hl & Ho).
  exists r, d. split_and!; [done| |by eapply prefix_lookup_Some..|done].
  apply (run_item _ _ items); [by eapply prefix_lookup_Some|done].
Qed.

Lemma merge_store hi i j h sm sp seed other :
  hs `prefix_of` hi → scan_rel hi h sm sp →
  arts !! j = Some other → arts !! i = Some seed →
  ∃ sm' h', Store.merge articles i j sm h = Some (sm', h')
            ∧ scan_rel hi h' sm' (merge seed other j sp).
Proof.
  intros Hs (Hp & Hge & Hrefs & (d & Hd & Hne & Hdl & Hda) & Hw & Hu) Hj Hi.
  assert (hs `prefix_of` h) as Hsh by exact (transitivity Hs Hp).
  destruct (input_item h j other Hsh Hj) as (rj & dj & _ & Hitem & Hrj & _ & Ho).
  assert (Store.d_source dj = source other) as Hsrc by by rewrite Ho.
  assert (Store.d_title dj = title other) as Htitle by by rewrite Ho.
  assert (Store.d_source d = source (sc_article sp)) as Hsrc' by by rewrite <- Hda.
  assert (Store.rep_score dj = rep_score other) as Hsc by by rewrite Ho.
  assert (Store.rep_score d = rep_score (sc_article sp)) as Hsc' by by rewrite <- Hda.
  unfold Store.merge.
  rewrite (run_bind _ _ _ _ _ Hitem).
  rewrite (run_bind _ _ _ _ _ (run_load_dict _ _ _ Hrj)).
  rewrite (run_bind _ _ _ _ _ (run_load_dict _ _ _ Hd)).
  destruct (run_append_if
              (PyStr.truthy (Store.d_source dj)
               && negb (bool_decide (Store.d_source dj = Store.d_source d)))
              hi h _ _ (Store.d_source dj) Hp Hge Hrefs)
    as (h1 & Happ & Hp1 & Hrefs1 & Hlen1 & Hsame1).
  rewrite (run_bind _ _ _ _ _ Happ).
  rewrite Hsc, Hsc'. unfold merge.
  assert (Store.sc_article sm ≠ Store.sc_refs sm) as Hne' by congruence.
  assert (Store.sc_refs sm < length h) as Hlt by by eapply lookup_lt_Some.
  destruct (score_gt (rep_score other) (rep_score (sc_article sp))).
  - set (h2 := (h1 ++ [Store.OStrs []])%list).
    set (d' := Store.with_also_reported_by dj (length h1)).
    set (h3 := (h2 ++ [Store.ODict d'])%list).
    assert (hi `prefix_of` h3) as Hp3 by (unfold h3, h2; by do 2 apply prefix_app_r).
    assert (hs `prefix_of` h3) as Hs3 by exact (transitivity Hs Hp3).
    destruct (input_item h3 i seed Hs3 Hi) as (ri & di & _ & Hitem3 & Hri & _ & Hseed).
    assert (h3 !! Store.sc_refs sm
            = Some (Store.OStrs
                      (if PyStr.truthy (Store.d_source dj)
                          && negb (bool_decide (Store.d_source dj = Store.d_source d))
                       then (sc_refs sp ++ [Store.d_source dj])%list
                       else sc_refs sp))) as Hrefs3.
    { unfold h3, h2. by do 2 apply lookup_app_l_Some. }
    destruct (run_append_if
                (negb (bool_decide (Store.d_source d' = Store.d_source di)))
                hi h3 _ _ (Store.d_source di) Hp3 Hge Hrefs3)
      as (h4 & Happ4 & Hp4 & Hrefs4 & Hlen4 & Hsame4).
    exists {| Store.sc_article := length h2;
              Store.sc_words := Store._title_words (Store.d_title d');
              Store.sc_refs := Store.sc_refs sm;
              Store.sc_used := {[j]} ∪ Store.sc_used sm |}, h4.
    split.
    + change (Store.alloc (Store.OStrs []) h1) with (Some (length h1, h2)).
      rewrite (run_bind _ _ h1 (length h1) h2) by done.
      rewrite (run_bind _ _ h2 (length h2) h3) by done.
      rewrite (run_bind _ _ h3 d' h3) by (apply run_load_dict, lookup_alloc).
      rewrite (run_bind _ _ _ _ _ Hitem3).
      rewrite (run_bind _ _ _ _ _ (run_load_dict _ _ _ Hri)).
      by rewrite (run_bind _ _ _ _ _ Happ4).
    + assert (length h1 ≠ Store.sc_refs sm) as Hn1 by lia.
      assert (length h2 ≠ Store.sc_refs sm) as Hn2.
      { unfold h2. rewrite length_app. simpl. lia. }
      split_and!; simpl.
      * done.
      * done.
      * rewrite Hrefs4. rewrite Hsrc, Hsrc'. f_equal. f_equal.
        replace (Store.d_source d') with (source other) by done.
        replace (Store.d_source di) with (source seed) by by rewrite Hseed.
        done.
      * exists d'. split_and!.
        -- rewrite Hsame4 by done. apply lookup_alloc.
        -- done.
        -- simpl. rewrite Hsame4 by done. unfold h3.
           apply lookup_app_l_Some, lookup_alloc.
        -- rewrite Ho. done.
      * rewrite Htitle. apply title_words_holds.
      * by rewrite Hu.
  - exists {| Store.sc_article := Store.sc_article sm;
              Store.sc_words := Store.sc_words sm;
              Store.sc_refs := Store.sc_refs sm;
              Store.sc_used := {[j]} ∪ Store.sc_used sm |}, h1.
    split; [done|]. split_and!; simpl.
    + done.
    + done.
    + by rewrite Hrefs1, Hsrc, Hsrc'.
    + exists d. split_and!; [|done| |done].
      * by rewrite Hsame1.
      * by rewrite Hsame1.
    + done.
    + by rewrite Hu.
Qed.

Lemma scan_step_store hi i h sm sp j sp' :
  hs `prefix_of` hi → scan_rel hi h sm sp →
  scan_step arts i sp j = Some sp' →
  ∃ sm' h', Store.scan_step articles i sm j h = Some (sm', h')
            ∧ scan_rel hi h' sm' sp'.
Proof.
  intros Hs Hrel Hstep. pose proof Hrel as (Hp & _ & _ & _ & Hw & Hu).
  assert (hs `prefix_of` h) as Hsh by exact (transitivity Hs Hp).
  unfold Store.scan_step, scan_step in *. rewrite Hu.
  destruct (bool_decide (j ∈ sc_used sp)).
  { injection Hstep as <-. by exists sm, h. }
  destruct (arts !! j) as [other|] eqn:Hj; [|done]. cbn [mbind option_bind] in Hstep.
  destruct (input_item h j other Hsh Hj) as (rj & dj & _ & Hitem & Hrj & _ & Ho).
  assert (Store.d_title dj = title other) as Htitle by by rewrite Ho.
  rewrite (run_bind _ _ _ _ _ Hitem).
  rewrite (run_bind _ _ _ _ _ (run_load_dict _ _ _ Hrj)).
  rewrite Htitle.
  rewrite (jaccard_holds _ _ _ _ Hw (title_words_holds (title other))).
  destruct (_jaccard (sc_words sp) (_title_words (title other))) as [sim|];
    [|done].
  cbn [mbind option_bind] in Hstep.
  rewrite (run_bind _ _ h sim h) by done.
  destruct (Qgtb sim (1 # 2)).
  - destruct (arts !! i) as [seed|] eqn:Hi; [|done].
    injection Hstep as <-. by apply merge_store.
  - injection Hstep as <-. by exists sm, h.
Qed.

Lemma title_step_store dd h um sp i r a sp' :
  title_rel hs h dd um sp → items !! i = Some r → arts !! i = Some a →
  title_step arts sp (i, a) = Some sp' →
  ∃ um' h', Store.title_step articles dd um (i, r) h = Some (um', h')
            ∧ title_rel hs h' dd um' sp'.
Proof.
  destruct sp as [used outs]. intros (Hp & Hge & -> & Hread) Hr Ha Hstep.
  simpl in Hread. unfold title_step in Hstep. unfold Store.title_step.
  simpl. destruct (bool_decide (i ∈ used)).
  { injection Hstep as <-. exists used, h. by split. }
  destruct (scan arts used i a) as [sc|] eqn:Hscan; [|done].
  cbn [mbind option_bind] in Hstep. injection Hstep as <-.
  destruct (input_item h i a Hp Ha) as (r' & d & Hr' & _ & Hd & Hdl & Hda).
  assert (r' = r) as -> by congruence.
  assert (Store.d_title d = title a) as Htitle by by rewrite Hda.
  set (h1 := (h ++ [Store.OStrs (also_reported_by a)])%list).
  assert (h `prefix_of` h1) as Hp1 by by apply prefix_app_r.
  assert (hs `prefix_of` h1) as Hs1 by exact (transitivity Hp Hp1).
  assert (Store.d_also_reported_by d < length h) as Hlt by by eapply lookup_lt_Some.
  destruct (for_each_store (scan_step arts i) (Store.scan_step articles i)
              (scan_rel h) eq (later arts i) (later arts i)
              (Forall2_diag _))
    with (h := h1)
         (sm := {| Store.sc_article := r;
                   Store.sc_words := Store._title_words (Store.d_title d);
                   Store.sc_refs := length h;
                   Store.sc_used := used |})
         (sp := scan_init used a) (sp' := sc)
    as (sm' & h2 & Hloop & Hrel2).
  - intros h' sm sp j ? sp' <- Hrel Hstep. by eapply scan_step_store.
  - split_and!; simpl.
    + done.
    + done.
    + apply lookup_alloc.
    + exists d. split_and!.
      * by apply lookup_app_l_Some.
      * lia.
      * by apply lookup_app_l_Some.
      * by rewrite <- Hda.
    + rewrite Htitle. apply title_words_holds.
    + done.
  - exact Hscan.
  - destruct Hrel2 as (Hp2 & Hge2 & Hrefs2 & (d' & Hd' & Hne' & Hdl' & Hda') & _ & Hu2).
    destruct (read_list_elim _ _ _ Hread) as (rs & Hdd & Hrs).
    set (h3 := (h2 ++ [Store.ODict (Store.with_also_reported_by d' (Store.sc_refs sm'))])%list).
    assert (h `prefix_of` h3) as Hp3 by by apply prefix_app_r.
    assert (h3 !! dd = Some (Store.ORefs rs)) as Hdd3 by by eapply prefix_lookup_Some.
    exists (Store.sc_used sm'), (<[dd := Store.ORefs (rs ++ [length h2])]> h3).
    split.
    + rewrite (run_bind _ _ _ _ _ (run_load_dict _ _ _ Hd)).
      rewrite (run_bind _ _ _ _ _ (run_load_strs _ _ _ Hdl)).
      rewrite (run_bind _ _ h (length h) h1) by done.
      rewrite (run_bind _ _ h1 (length items) h1).
      2:{ apply run_len. by eapply prefix_lookup_Some. }
      rewrite (Forall2_length _ _ _ Harts).
      fold (later arts i). rewrite (run_bind _ _ _ _ _ Hloop).
      rewrite (run_bind _ _ _ _ _ (run_load_dict _ _ _ Hd')).
      rewrite (run_bind _ _ h2 (length h2) h3) by done.
      by rewrite (run_bind _ _ _ _ _ (run_append_ref _ _ _ (length h2) Hdd3)).
    + split_and!; simpl.
      * apply prefix_store; [|done]. exact (transitivity Hp Hp3).
      * done.
      * done.
      * apply (read_list_intro _ _ (rs ++ [length h2])).
        { apply list_lookup_insert_eq. by eapply lookup_lt_Some. }
        apply Forall2_app.
        -- eapply Forall2_impl; [exact Hrs|]. intros x y Hxy.
           apply (read_article_store_refs _ _ rs); [done|].
           by apply (read_article_prefix h).
        -- constructor; [|constructor].
           apply (read_article_store_refs _ _ rs); [done|].
           rewrite <- Hda'.
           apply (read_article_intro h3 (length h2)
                    (Store.with_also_reported_by d' (Store.sc_refs sm'))).
           ++ apply lookup_alloc.
           ++ by apply lookup_app_l_Some.
Qed.

Lemma enumerate_items :
  Forall2 (λ ir ia, ir.1 = ia.1 ∧ items !! ir.1 = Some ir.2 ∧ arts !! ia.1 = Some ia.2)
    (enumerate items) (enumerate arts).
Proof.
  apply Forall2_same_length_lookup_2.
  - rewrite !enumerate_length. by eapply Forall2_length.
  - intros k x y (r & -> & Hr)%enumerate_lookup_at (a & -> & Ha)%enumerate_lookup_at.
    done.
Qed.

(** [_dedup_by_title] on the store returns a new list that reads as the
    stories of the stage, and overwrites no object of [hs]. *)
Lemma dedup_by_title_store :
  ∃ out h' stories,
    Store._dedup_by_title articles hs = Some (out, h')
    ∧ hs `prefix_of` h'
    ∧ _dedup_by_title arts = Some stories
    ∧ Store.read_list h' out = Some stories.
Proof.
  destruct (dedup_by_title_returns arts) as [stories Hst].
  unfold _dedup_by_title in Hst.
  destruct (for_each (title_step arts) (∅, []) (enumerate arts))
    as [[used' stories']|] eqn:Hrun; [|done].
  injection Hst as <-.
  set (h0 := (hs ++ [Store.ORefs []])%list).
  destruct (for_each_store (title_step arts)
              (Store.title_step articles (length hs))
              (λ h um sp, title_rel hs h (length hs) um sp)
              (λ ir ia, ir.1 = ia.1 ∧ items !! ir.1 = Some ir.2
                        ∧ arts !! ia.1 = Some ia.2)
              (enumerate items) (enumerate arts) enumerate_items)
    with (h := h0) (sm := (∅ : gset nat))
         (sp := ((∅ : gset nat), ([] : list Article))) (sp' := (used', stories'))
    as (um' & h' & Hloop & Hrel).
  - intros h sm sp [i r] [i' a] sp' (Hi & Hr & Ha) Hrel Hstep. simpl in *.
    subst i'. by eapply title_step_store.
  - split_and!; simpl.
    + by apply prefix_app_r.
    + done.
    + done.
    + apply (read_list_intro _ _ []); [apply lookup_alloc|constructor].
  - exact Hrun.
  - destruct Hrel as (Hp & _ & _ & Hread). simpl in Hread.
    exists (length hs), h', stories'. split_and!; [|done|unfold _dedup_by_title; by rewrite Hrun|done].
    unfold Store._dedup_by_title.
    rewrite (run_bind _ _ hs (length hs) h0) by done.
    rewrite (run_bind _ _ h0 items h0).
    2:{ apply run_load_refs. by apply lookup_app_l_Some. }
    by rewrite (run_bind _ _ _ _ _ Hloop).
Qed.

End StoreTitle.

(** *** The reranking on the store *)

Lemma score_store h r a :
  Store.read_article h r = Some a → Store._score r h = Some (_score a, h).
Proof.
  intros (d & Hd & Hl & ->)%read_article_elim. unfold Store._score.
  rewrite (run_bind _ _ _ _ _ (run_load_dict _ _ _ Hd)).
  by rewrite (run_bind _ _ _ _ _ (run_load_strs _ _ _ Hl)).
Qed.

Lemma keyed_loop_store h rs arts keys :
  Forall2 (λ r a, Store.read_article h r = Some a) rs arts →
  ∃ ks, Store.for_each Store.keyed keys rs h = Some ((keys ++ ks)%list, h)
        ∧ Forall2 (λ k a, k.1 = _score a ∧ Store.read_article h k.2 = Some a)
            ks arts.
Proof.
  intros Hrs. revert keys.
  induction Hrs as [|r a rs arts Hr _ IH]; intros keys; cbn [Store.for_each].
  { exists []. rewrite app_nil_r. split; [done|constructor]. }
  destruct (IH (keys ++ [(_score a, r)])%list) as (ks & Hrun & Hks).
  exists ((_score a, r) :: ks). split.
  - assert (Store.keyed keys r h = Some ((keys ++ [(_score a, r)])%list, h)) as Hk.
    { unfold Store.keyed. by rewrite (run_bind _ _ _ _ _ (score_store _ _ _ Hr)). }
    rewrite (run_bind _ _ _ _ _ Hk), Hrun. by rewrite <- app_assoc.
  - by constructor.
Qed.

Section SortedRelated.
Context {A B K : Type} (lt : K → K → bool) (keyA : A → K) (keyB : B → K).
Context (R : A → B → Prop).
Hypothesis Hkey : ∀ x y, R x y → keyA x = keyB y.

Lemma insert_desc_related x y l k :
  R x y → Forall2 R l k →
  Forall2 R (insert_desc lt keyA x l) (insert_desc lt keyB y k).
Proof.
  intros Hxy Hlk. induction Hlk as [|x' y' l k Hxy' Hlk IH]; cbn [insert_desc].
  - by repeat constructor.
  - rewrite (Hkey x y Hxy), (Hkey x' y' Hxy').
    destruct (lt (keyB y) (keyB y')); by repeat constructor.
Qed.

Lemma sorted_reverse_related l k :
  Forall2 R l k →
  Forall2 R (sorted_reverse lt keyA l) (sorted_reverse lt keyB k).
Proof.
  unfold sorted_reverse. induction 1 as [|x y l k Hxy _ IH]; simpl.
  - constructor.
  - by apply insert_desc_related.
Qed.

End SortedRelated.

Lemma rerank_store h articles arts :
  Store.read_list h articles = Some arts →
  ∃ out h', Store._rerank articles h = Some (out, h')
            ∧ h `prefix_of` h'
            ∧ Store.read_list h' out = Some (_rerank arts).
Proof.
  intros (rs & Hl & Hrs)%read_list_elim.
  destruct (keyed_loop_store h rs arts [] Hrs) as (ks & Hloop & Hks).
  simpl in Hloop.
  set (sorted := sorted_reverse score_lt fst ks).
  exists (length h), (h ++ [Store.ORefs sorted.*2])%list. split_and!.
  - unfold Store._rerank.
    rewrite (run_bind _ _ _ _ _ (run_load_refs _ _ _ Hl)).
    by rewrite (run_bind _ _ _ _ _ Hloop).
  - by apply prefix_app_r.
  - apply (read_list_intro _ _ sorted.*2); [apply lookup_alloc|].
    apply (read_items_prefix h); [by apply prefix_app_r|].
    apply Forall2_fmap_l.
    eapply Forall2_impl.
    + apply (sorted_reverse_related score_lt fst _score
               (λ k a, k.1 = _score a ∧ Store.read_article h k.2 = Some a));
        [by intros ?? [? _]|exact Hks].
    + by intros k a [_ Hr].
Qed.

(** *** The composed stages on the store *)

Lemma consolidate_store `{UrlLib} `{Store.Hashing} h raw_articles raw :
  Store.read_list h raw_articles = Some raw →
  ∃ out h' ranked,
    Store.consolidate raw_articles h = Some (out, h')
    ∧ h `prefix_of` h'
    ∧ consolidate raw = Some ranked
    ∧ Store.read_list h' out = Some ranked.
Proof.
  intros Hraw.
  destruct (dedup_by_url_store h raw_articles raw Hraw) as (l1 & h1 & Hrun1 & Hp1 & Hread1).
  destruct (read_list_elim _ _ _ Hread1) as (items & Hitems & Harts).
  destruct (dedup_by_title_store h1 l1 items (_dedup_by_url raw) Hitems Harts)
    as (l2 & h2 & stories & Hrun2 & Hp2 & Hst & Hread2).
  destruct (rerank_store h2 l2 stories Hread2) as (l3 & h3 & Hrun3 & Hp3 & Hread3).
  exists l3, h3, (_rerank stories). split_and!.
  - unfold Store.consolidate.
    rewrite (run_bind _ _ _ _ _ Hrun1). by rewrite (run_bind _ _ _ _ _ Hrun2).
  - exact (transitivity Hp1 (transitivity Hp2 Hp3)).
  - unfold consolidate. by rewrite Hst.
  - done.
Qed.

(** C9: run the composed stages (URL deduplication, title deduplication,
    reranking) on a list of article dicts in the object store, then run
    them once more on the same list object in the store the first run has
    left, each run with its own order of iteration over sets. Both runs
    return; neither overwrites an object that was there when it started, so
    the input and the first result read as before; the two results read as
    the same list of articles, the one [consolidate] computes from the
    input as a value; and a second run that starts from the first store
    instead returns that list as well. *)
Theorem pipeline_is_deterministic `{UrlLib} (seed1 seed2 : Store.Hashing)
    (h : list Store.Obj) (raw_articles : nat) (raw : list Article) :
  Store.read_list h raw_articles = Some raw →
  ∃ out1 h1 out2 h2 ranked,
    @Store.consolidate _ seed1 raw_articles h = Some (out1, h1)
    ∧ @Store.consolidate _ seed2 raw_articles h1 = Some (out2, h2)
    ∧ h `prefix_of` h1
    ∧ h1 `prefix_of` h2
    ∧ Store.read_list h2 raw_articles = Some raw
    ∧ Store.read_list h1 out1 = Some ranked
    ∧ Store.read_list h2 out1 = Some ranked
    ∧ Store.read_list h2 out2 = Some ranked
    ∧ consolidate raw = Some ranked
    ∧ ∃ out3 h3,
        @Store.consolidate _ seed2 raw_articles h = Some (out3, h3)
        ∧ Store.read_list h3 out3 = Some ranked.
Proof.
  intros Hraw.
  destruct (@consolidate_store _ seed1 h raw_articles raw Hraw)
    as (out1 & h1 & ranked & Hrun1 & Hp1 & Hpure & Hread1).
  assert (Store.read_list h1 raw_articles = Some raw) as Hraw1
    by by eapply read_list_prefix.
  destruct (@consolidate_store _ seed2 h1 raw_articles raw Hraw1)
    as (out2 & h2 & ranked2 & Hrun2 & Hp2 & Hpure2 & Hread2).
  destruct (@consolidate_store _ seed2 h raw_articles raw Hraw)
    as (out3 & h3 & ranked3 & Hrun3 & _ & Hpure3 & Hread3).
  assert (ranked2 = ranked) as -> by congruence.
  assert (ranked3 = ranked) as -> by congruence.
  exists out1, h1, out2, h2, ranked. split_and!; try done.
  - by eapply read_list_prefix.
  - by eapply read_list_prefix.
  - by exists out3, h3.
Qed.

Lemma pipeline_is_deterministic_witness :
  Store.read_list shared_store 6
  = Some [wire_a; linked_first; wire_b; linked_again; wire_c]
  ∧ ∃ out1 h1 out2 h2 ranked,
      @Store.consolidate Urllib.cpython Store.insertion_order 6 shared_store
      = Some (out1, h1)
      ∧ @Store.consolidate Urllib.cpython Store.opposite_order 6 h1
        = Some (out2, h2)
      ∧ shared_store `prefix_of` h1
      ∧ h1 `prefix_of` h2
      ∧ Store.read_list h2 6
        = Some [wire_a; linked_first; wire_b; linked_again; wire_c]
      ∧ Store.read_list h1 out1 = Some ranked
      ∧ Store.read_list h2 out1 = Some ranked
      ∧ Store.read_list h2 out2 = Some ranked
      ∧ @consolidate Urllib.cpython
          [wire_a; linked_first; wire_b; linked_again; wire_c]
        = Some ranked
      ∧ ∃ out3 h3,
          @Store.consolidate Urllib.cpython Store.opposite_order 6 shared_store
          = Some (out3, h3)
          ∧ Store.read_list h3 out3 = Some ranked.
Proof.
  split; [vm_compute; reflexivity|].
  apply (@pipeline_is_deterministic Urllib.cpython).
  vm_compute. reflexivity.
Defined.

(** The two orders of iteration differ, and the two runs agree all the
    same. *)
Example hash_orders_differ :
  @Store._title_words Store.insertion_order (title wire_a)
  ≠ @Store._title_words Store.opposite_order (title wire_a).
Proof. vm_compute. discriminate. Qed.
